(** * Payment history reconciliation (payments.go)

    A shallow embedding of the payment-history code of the wallet:
    the invoice memo codec ([AddInvoice], [DecodePaymentRequest],
    [GetRelatedInvoice]), the sent payment synchronizer
    ([syncSentPayments], [onNewSentPayment]), the settlement handler
    ([onNewReceivedPayment]), the pending HTLC resolver
    ([getPendingPayments], [createPendingPayment]) and the list
    assembler ([GetPayments]).

    Go values are modelled as follows: [int64], [uint64] and [uint32]
    are integers of [Z] with the wrap-around written out where the code
    does arithmetic or converts; a Go [string] is a [string] (a sequence
    of bytes); a [[]byte] is a [list byte]; a pointer that may be [nil]
    is an [option]; the node, the database and the clock are a record of
    responses ([Env]) and an explicit world that is threaded through a
    small monad recording every call made to a collaborator. *)

From Stdlib Require Import ZArith List Bool Lia.
From Stdlib.Strings Require Import String Ascii Byte.
From Stdlib Require Import Permutation Sorted.
Import ListNotations.

Local Open Scope string_scope.
Local Open Scope list_scope.
Local Open Scope Z_scope.

(** ** Machine integers *)

Module GoInt.

(** Conversion to [uint64]: the low 64 bits. *)
Definition uint64 (z : Z) : Z := z mod 2 ^ 64.

(** Conversion to [uint32]: the low 32 bits. *)
Definition uint32 (z : Z) : Z := z mod 2 ^ 32.

(** Conversion to [int64]: the low 64 bits read in two's complement. *)
Definition int64 (z : Z) : Z := (z + 2 ^ 63) mod 2 ^ 64 - 2 ^ 63.

Definition is_int64 (z : Z) : Prop := - 2 ^ 63 <= z < 2 ^ 63.
Definition is_uint32 (z : Z) : Prop := 0 <= z < 2 ^ 32.

End GoInt.

(** ** The [strings] package

    [Index], [Count] and [Split] of the Go standard library, for a
    separator that is not empty (the only use in this code is the
    three-byte separator [" | "]).  [Count] counts occurrences that do
    not overlap, from the left, exactly as the loop in the library. *)

Module strings.

Local Open Scope string_scope.

(** [s[n:]] *)
Fixpoint drop (n : nat) (s : string) : string :=
  match n, s with
  | O, _ => s
  | S n', String _ s' => drop n' s'
  | S _, EmptyString => EmptyString
  end.

(** [s[:n]] *)
Fixpoint take (n : nat) (s : string) : string :=
  match n, s with
  | O, _ => EmptyString
  | S n', String c s' => String c (take n' s')
  | S _, EmptyString => EmptyString
  end.

Fixpoint HasPrefix (s prefix : string) {struct prefix} : bool :=
  match prefix, s with
  | EmptyString, _ => true
  | String c p', String d s' => Ascii.eqb c d && HasPrefix s' p'
  | String _ _, EmptyString => false
  end.

(** Position of the first occurrence of [substr] in [s];
    [None] stands for the result [-1]. *)
Fixpoint Index (s substr : string) : option nat :=
  if HasPrefix s substr then Some O
  else match s with
       | EmptyString => None
       | String _ s' => option_map S (Index s' substr)
       end.

(** The loop of [Count]: find the next occurrence, count it, and go
    on after it. *)
Fixpoint Count_loop (fuel : nat) (s substr : string) (n : nat) : nat :=
  match fuel with
  | O => n
  | S fuel' =>
      match Index s substr with
      | None => n
      | Some i => Count_loop fuel' (drop (i + length substr) s) substr (S n)
      end
  end.

Definition Count (s substr : string) : nat :=
  Count_loop (S (length s)) s substr O.

(** The loop of [genSplit]: at most [n] cuts, the rest of the text is
    the last field. *)
Fixpoint genSplit_loop (n : nat) (s sep : string) : list string :=
  match n with
  | O => [s]
  | S n' =>
      match Index s sep with
      | None => [s]
      | Some m => take m s :: genSplit_loop n' (drop (m + length sep) s) sep
      end
  end.

Definition Split (s sep : string) : list string :=
  genSplit_loop (Count s sep) s sep.

End strings.

(** ** The messages of the node and of the application

    [lnrpc] holds the messages of the node's interface this code reads
    (the fields it uses); [data] holds the messages declared in
    data/messages.proto. *)

Definition error := string.

Module lnrpc.

Record Payment := {
  Payment_PaymentHash : string;
  Payment_Value : Z;
  Payment_CreationDate : Z
}.

Record Invoice := {
  Invoice_Memo : string;
  Invoice_Value : Z;
  Invoice_Expiry : Z;
  Invoice_Private : bool;
  Invoice_PaymentRequest : string;
  Invoice_RHash : list byte;
  Invoice_Settled : bool;
  Invoice_AmtPaidSat : Z;
  Invoice_SettleDate : Z;
  Invoice_SettleIndex : Z
}.

Record HTLC := {
  Incoming : bool;
  HTLC_Amount : Z;
  HashLock : list byte;
  ExpirationHeight : Z
}.

Record Channel := {
  PendingHtlcs : list HTLC
}.

Record GetInfoResponse := {
  BlockHeight : Z
}.

Record PayReq := {
  Destination : string;
  PaymentHash : string;
  NumSatoshis : Z;
  Timestamp : Z;
  PayReq_Description : string
}.

(** The request of [LookupInvoice]: the hash as text or as bytes. *)
Record PaymentHashReq := {
  RHashStr : string;
  RHash : list byte
}.

End lnrpc.

Module data.

(** message InvoiceMemo, fields 1 to 8. *)
Record InvoiceMemo := {
  Description : string;
  Amount : Z;
  PayeeName : string;
  PayeeImageURL : string;
  PayerName : string;
  PayerImageURL : string;
  TransferRequest : bool;
  Expiry : Z
}.

(** The zero value [&data.InvoiceMemo{}]. *)
Definition InvoiceMemo_zero : InvoiceMemo :=
  {| Description := ""; Amount := 0; PayeeName := ""; PayeeImageURL := "";
     PayerName := ""; PayerImageURL := ""; TransferRequest := false;
     Expiry := 0 |}.

Definition set_Description (v : string) (m : InvoiceMemo) : InvoiceMemo :=
  {| Description := v; Amount := Amount m; PayeeName := PayeeName m;
     PayeeImageURL := PayeeImageURL m; PayerName := PayerName m;
     PayerImageURL := PayerImageURL m; TransferRequest := TransferRequest m;
     Expiry := Expiry m |}.

Definition set_Amount (v : Z) (m : InvoiceMemo) : InvoiceMemo :=
  {| Description := Description m; Amount := v; PayeeName := PayeeName m;
     PayeeImageURL := PayeeImageURL m; PayerName := PayerName m;
     PayerImageURL := PayerImageURL m; TransferRequest := TransferRequest m;
     Expiry := Expiry m |}.

Definition set_PayeeName (v : string) (m : InvoiceMemo) : InvoiceMemo :=
  {| Description := Description m; Amount := Amount m; PayeeName := v;
     PayeeImageURL := PayeeImageURL m; PayerName := PayerName m;
     PayerImageURL := PayerImageURL m; TransferRequest := TransferRequest m;
     Expiry := Expiry m |}.

Definition set_PayeeImageURL (v : string) (m : InvoiceMemo) : InvoiceMemo :=
  {| Description := Description m; Amount := Amount m; PayeeName := PayeeName m;
     PayeeImageURL := v; PayerName := PayerName m;
     PayerImageURL := PayerImageURL m; TransferRequest := TransferRequest m;
     Expiry := Expiry m |}.

Definition set_PayerName (v : string) (m : InvoiceMemo) : InvoiceMemo :=
  {| Description := Description m; Amount := Amount m; PayeeName := PayeeName m;
     PayeeImageURL := PayeeImageURL m; PayerName := v;
     PayerImageURL := PayerImageURL m; TransferRequest := TransferRequest m;
     Expiry := Expiry m |}.

Definition set_PayerImageURL (v : string) (m : InvoiceMemo) : InvoiceMemo :=
  {| Description := Description m; Amount := Amount m; PayeeName := PayeeName m;
     PayeeImageURL := PayeeImageURL m; PayerName := PayerName m;
     PayerImageURL := v; TransferRequest := TransferRequest m;
     Expiry := Expiry m |}.

Definition set_TransferRequest (v : bool) (m : InvoiceMemo) : InvoiceMemo :=
  {| Description := Description m; Amount := Amount m; PayeeName := PayeeName m;
     PayeeImageURL := PayeeImageURL m; PayerName := PayerName m;
     PayerImageURL := PayerImageURL m; TransferRequest := v;
     Expiry := Expiry m |}.

Definition set_Expiry (v : Z) (m : InvoiceMemo) : InvoiceMemo :=
  {| Description := Description m; Amount := Amount m; PayeeName := PayeeName m;
     PayeeImageURL := PayeeImageURL m; PayerName := PayerName m;
     PayerImageURL := PayerImageURL m; TransferRequest := TransferRequest m;
     Expiry := v |}.

(** enum Payment.PaymentType *)
Inductive Payment_PaymentType :=
| Payment_DEPOSIT
| Payment_WITHDRAWAL
| Payment_SENT
| Payment_RECEIVED.

(** message Payment *)
Record Payment := {
  Payment_Type : Payment_PaymentType;
  Payment_Amount : Z;
  Payment_CreationTimestamp : Z;
  Payment_InvoiceMemo : InvoiceMemo;
  Payment_RedeemTxID : string;
  Payment_PaymentHash : string;
  Payment_Destination : string;
  Payment_PendingExpirationHeight : Z;
  Payment_PendingExpirationTimestamp : Z
}.

(** message Invoice *)
Record Invoice := {
  Invoice_Memo : InvoiceMemo;
  Invoice_Settled : bool;
  Invoice_AmtPaid : Z
}.

Inductive NotificationType :=
| NotificationEvent_READY
| NotificationEvent_INITIALIZATION_FAILED
| NotificationEvent_ACCOUNT_CHANGED
| NotificationEvent_INVOICE_PAID.

End data.

(** ** The structured encoding of a memo

    Modelled from the spec: the generated codec of [InvoiceMemo]
    (data/messages.pb.go) and the protobuf runtime that drives it are not
    among the sources; what follows is the proto3 wire encoding of the
    message declared in data/messages.proto (strings in fields 1, 3, 4,
    5 and 6, [int64] in fields 2 and 8, [bool] in field 7), as the
    table-driven runtime writes and reads it: fields in the order of
    their numbers, zero values left out, unknown fields and fields of an
    unexpected wire type skipped, strings checked to be UTF-8.
    [Unmarshal] returns the message as the runtime leaves it, with the
    fields read before an error, and the error. *)

Module proto.

Import data.

(** [uint8(x)]: the low eight bits, as a byte. *)
Definition uint8 (z : Z) : byte :=
  match Byte.of_N (Z.to_N (z mod 256)) with
  | Some b => b
  | None => x00
  end.

(** The value of a byte. *)
Definition val (b : byte) : Z := Z.of_N (Byte.to_N b).

Definition WireVarint : Z := 0.
Definition WireFixed64 : Z := 1.
Definition WireBytes : Z := 2.
Definition WireStartGroup : Z := 3.
Definition WireEndGroup : Z := 4.
Definition WireFixed32 : Z := 5.

Definition ErrUnexpectedEOF : error := "unexpected EOF".
Definition errInvalidUTF8 : error := "proto: invalid UTF-8 string".
Definition errSkipWireType : error := "proto: can't skip unknown wire type".

(** [EncodeVarint]: seven bits a byte, low bits first, the high bit of
    a byte says that more follow.  A [uint64] takes at most ten bytes,
    so the loop runs at most nine times. *)
Fixpoint EncodeVarint_loop (fuel : nat) (x : Z) : list byte :=
  match fuel with
  | O => [uint8 x]
  | S fuel' =>
      if 127 <? x
      then uint8 (Z.lor 128 (Z.land x 127)) :: EncodeVarint_loop fuel' (Z.shiftr x 7)
      else [uint8 x]
  end.

Definition EncodeVarint (x : Z) : list byte := EncodeVarint_loop 9 x.

(** [DecodeVarint]: the loop over [shift = 0, 7, ..., 63]; [None] is
    the result [(0, 0)] of a varint that is cut short or too long.  The
    result is the value and the bytes after it. *)
Fixpoint DecodeVarint_loop (fuel : nat) (shift x : Z) (buf : list byte)
  : option (Z * list byte) :=
  match fuel with
  | O => None
  | S fuel' =>
      match buf with
      | [] => None
      | b :: buf' =>
          let x' := Z.lor x (GoInt.uint64 (Z.shiftl (Z.land (val b) 127) shift)) in
          if Z.land (val b) 128 =? 0 then Some (x', buf')
          else DecodeVarint_loop fuel' (shift + 7) x' buf'
      end
  end.

Definition DecodeVarint (buf : list byte) : option (Z * list byte) :=
  DecodeVarint_loop 10 0 0 buf.

(** [utf8.ValidString] *)
Definition between (lo hi : Z) (b : byte) : bool :=
  (lo <=? val b) && (val b <=? hi).

Fixpoint utf8_Valid (p : list byte) : bool :=
  match p with
  | [] => true
  | b0 :: p1 =>
      if val b0 <? 128 then utf8_Valid p1
      else if between 194 223 b0 then
        match p1 with
        | b1 :: p2 => between 128 191 b1 && utf8_Valid p2
        | _ => false
        end
      else if between 224 239 b0 then
        match p1 with
        | b1 :: b2 :: p3 =>
            between (if val b0 =? 224 then 160 else 128)
                    (if val b0 =? 237 then 159 else 191) b1
            && between 128 191 b2 && utf8_Valid p3
        | _ => false
        end
      else if between 240 244 b0 then
        match p1 with
        | b1 :: b2 :: b3 :: p4 =>
            between (if val b0 =? 240 then 144 else 128)
                    (if val b0 =? 244 then 143 else 191) b1
            && between 128 191 b2 && between 128 191 b3 && utf8_Valid p4
        | _ => false
        end
      else false
  end.

Definition utf8_ValidString (s : string) : bool :=
  utf8_Valid (list_byte_of_string s).

(** *** Marshal *)

(** The tag of a field: its number and its wire type. *)
Definition wiretag (field wire : Z) : list byte :=
  EncodeVarint (Z.lor (Z.shiftl field 3) wire).

Definition appendUTF8StringValueNoZero (field : Z) (v : string)
  : list byte * option error :=
  if String.eqb v "" then ([], None)
  else (wiretag field WireBytes
          ++ EncodeVarint (Z.of_nat (String.length v))
          ++ list_byte_of_string v,
        if utf8_ValidString v then None else Some errInvalidUTF8).

Definition appendVarint64ValueNoZero (field : Z) (v : Z) : list byte :=
  if v =? 0 then []
  else wiretag field WireVarint ++ EncodeVarint (GoInt.uint64 v).

Definition appendBoolValueNoZero (field : Z) (v : bool) : list byte :=
  if v then wiretag field WireVarint ++ [x01] else [].

Definition first_error (e1 e2 : option error) : option error :=
  match e1 with
  | Some e => Some e
  | None => e2
  end.

(** [proto.Marshal(invoice)]: the bytes, and the error reported at the
    end when a string is not UTF-8. *)
Definition Marshal (m : InvoiceMemo) : list byte * option error :=
  let '(b1, e1) := appendUTF8StringValueNoZero 1 (Description m) in
  let b2 := appendVarint64ValueNoZero 2 (Amount m) in
  let '(b3, e3) := appendUTF8StringValueNoZero 3 (PayeeName m) in
  let '(b4, e4) := appendUTF8StringValueNoZero 4 (PayeeImageURL m) in
  let '(b5, e5) := appendUTF8StringValueNoZero 5 (PayerName m) in
  let '(b6, e6) := appendUTF8StringValueNoZero 6 (PayerImageURL m) in
  let b7 := appendBoolValueNoZero 7 (TransferRequest m) in
  let b8 := appendVarint64ValueNoZero 8 (Expiry m) in
  (b1 ++ b2 ++ b3 ++ b4 ++ b5 ++ b6 ++ b7 ++ b8,
   first_error e1 (first_error e3 (first_error e4 (first_error e5 e6)))).

(** *** Unmarshal *)

(** What the unmarshaler of one field reports. *)
Inductive field_result :=
| FieldSet (b : list byte) (m : InvoiceMemo)
| FieldInvalidUTF8 (b : list byte) (m : InvoiceMemo)
| FieldBadWireType
| FieldError (e : error).

Definition unmarshalInt64Value (b : list byte) (w : Z)
    (set : Z -> InvoiceMemo) : field_result :=
  if negb (w =? WireVarint) then FieldBadWireType
  else match DecodeVarint b with
       | None => FieldError ErrUnexpectedEOF
       | Some (x, b') => FieldSet b' (set (GoInt.int64 x))
       end.

Definition unmarshalBoolValue (b : list byte) (w : Z)
    (set : bool -> InvoiceMemo) : field_result :=
  if negb (w =? WireVarint) then FieldBadWireType
  else match DecodeVarint b with
       | None => FieldError ErrUnexpectedEOF
       | Some (x, b') => FieldSet b' (set (negb (x =? 0)))
       end.

Definition unmarshalUTF8StringValue (b : list byte) (w : Z)
    (set : string -> InvoiceMemo) : field_result :=
  if negb (w =? WireBytes) then FieldBadWireType
  else match DecodeVarint b with
       | None => FieldError ErrUnexpectedEOF
       | Some (x, b') =>
           if Z.of_nat (List.length b') <? x then FieldError ErrUnexpectedEOF
           else
             let v := firstn (Z.to_nat x) b' in
             let rest := skipn (Z.to_nat x) b' in
             if utf8_Valid v
             then FieldSet rest (set (string_of_list_byte v))
             else FieldInvalidUTF8 rest (set (string_of_list_byte v))
       end.

(** The table of the message: the unmarshaler of each known field;
    [None] for a field number the message does not have. *)
Definition unmarshal_field (tag wire : Z) (b : list byte) (m : InvoiceMemo)
  : option field_result :=
  if tag =? 1 then Some (unmarshalUTF8StringValue b wire (fun v => set_Description v m))
  else if tag =? 2 then Some (unmarshalInt64Value b wire (fun v => set_Amount v m))
  else if tag =? 3 then Some (unmarshalUTF8StringValue b wire (fun v => set_PayeeName v m))
  else if tag =? 4 then Some (unmarshalUTF8StringValue b wire (fun v => set_PayeeImageURL v m))
  else if tag =? 5 then Some (unmarshalUTF8StringValue b wire (fun v => set_PayerName v m))
  else if tag =? 6 then Some (unmarshalUTF8StringValue b wire (fun v => set_PayerImageURL v m))
  else if tag =? 7 then Some (unmarshalBoolValue b wire (fun v => set_TransferRequest v m))
  else if tag =? 8 then Some (unmarshalInt64Value b wire (fun v => set_Expiry v m))
  else None.

(** [findEndGroup]: the bytes after the end of the group that is open,
    [None] when the group does not end. *)
Fixpoint findEndGroup (fuel : nat) (depth : nat) (b : list byte)
  : option (list byte) :=
  match fuel with
  | O => None
  | S fuel' =>
      match DecodeVarint b with
      | None => None
      | Some (x, b1) =>
          let w := Z.land x 7 in
          if w =? WireVarint then
            match DecodeVarint b1 with
            | None => None
            | Some (_, b2) => findEndGroup fuel' depth b2
            end
          else if w =? WireFixed32 then
            if (List.length b1 <? 4)%nat then None
            else findEndGroup fuel' depth (skipn 4 b1)
          else if w =? WireFixed64 then
            if (List.length b1 <? 8)%nat then None
            else findEndGroup fuel' depth (skipn 8 b1)
          else if w =? WireBytes then
            match DecodeVarint b1 with
            | None => None
            | Some (m, b2) =>
                if Z.of_nat (List.length b2) <? m then None
                else findEndGroup fuel' depth (skipn (Z.to_nat m) b2)
            end
          else if w =? WireStartGroup then findEndGroup fuel' (S depth) b1
          else if w =? WireEndGroup then
            match depth with
            | S (S d) => findEndGroup fuel' (S d) b1
            | _ => Some b1
            end
          else None
      end
  end.

(** [skipField]: the bytes after a field that is not kept. *)
Definition skipField (b : list byte) (wire : Z) : list byte + error :=
  if wire =? WireVarint then
    match DecodeVarint b with
    | None => inr ErrUnexpectedEOF
    | Some (_, b') => inl b'
    end
  else if wire =? WireFixed32 then
    if (List.length b <? 4)%nat then inr ErrUnexpectedEOF else inl (skipn 4 b)
  else if wire =? WireFixed64 then
    if (List.length b <? 8)%nat then inr ErrUnexpectedEOF else inl (skipn 8 b)
  else if wire =? WireBytes then
    match DecodeVarint b with
    | None => inr ErrUnexpectedEOF
    | Some (m, b') =>
        if Z.of_nat (List.length b') <? m then inr ErrUnexpectedEOF
        else inl (skipn (Z.to_nat m) b')
    end
  else if wire =? WireStartGroup then
    match findEndGroup (S (List.length b)) 1 b with
    | None => inr ErrUnexpectedEOF
    | Some b' => inl b'
    end
  else inr errSkipWireType.

(** The loop of the unmarshaler: read a tag, hand the field to its
    unmarshaler, skip what is not known.  Every round reads at least one
    byte, so one unit of fuel a byte is enough. *)
Fixpoint unmarshal_loop (fuel : nat) (b : list byte) (m : InvoiceMemo)
    (errLater : option error) : InvoiceMemo * option error :=
  match fuel with
  | O => (m, errLater)
  | S fuel' =>
      match b with
      | [] => (m, errLater)
      | _ :: _ =>
          match DecodeVarint b with
          | None => (m, Some ErrUnexpectedEOF)
          | Some (x, b1) =>
              let tag := Z.shiftr x 3 in
              let wire := Z.land x 7 in
              let skip :=
                match skipField b1 wire with
                | inr e => (m, Some e)
                | inl b2 => unmarshal_loop fuel' b2 m errLater
                end in
              match unmarshal_field tag wire b1 m with
              | Some (FieldSet b2 m') => unmarshal_loop fuel' b2 m' errLater
              | Some (FieldInvalidUTF8 b2 m') =>
                  unmarshal_loop fuel' b2 m' (first_error errLater (Some errInvalidUTF8))
              | Some (FieldError e) => (m, Some e)
              | Some FieldBadWireType => skip
              | None => skip
              end
          end
      end
  end.

(** [proto.Unmarshal(buf, &data.InvoiceMemo{})] *)
Definition Unmarshal (buf : list byte) : InvoiceMemo * option error :=
  unmarshal_loop (List.length buf) buf InvoiceMemo_zero None.

(** A memo the encoder accepts: integers of 64 bits, strings of UTF-8
    whose length is a Go [int]. *)
Definition valid_string (s : string) : Prop :=
  utf8_ValidString s = true /\ Z.of_nat (String.length s) < 2 ^ 63.

Definition valid_memo (m : InvoiceMemo) : Prop :=
  valid_string (Description m) /\ GoInt.is_int64 (Amount m)
  /\ valid_string (PayeeName m) /\ valid_string (PayeeImageURL m)
  /\ valid_string (PayerName m) /\ valid_string (PayerImageURL m)
  /\ GoInt.is_int64 (Expiry m).

End proto.

(** ** encoding/hex, time and sort

    The pieces of the Go standard library the code calls. *)

Module hex.

Definition hextable : string := "0123456789abcdef".

Definition digit (n : Z) : ascii :=
  match String.get (Z.to_nat n) hextable with
  | Some c => c
  | None => "0"%char
  end.

(** [hex.EncodeToString]: two digits a byte, high digit first. *)
Fixpoint EncodeToString (src : list byte) : string :=
  match src with
  | [] => ""
  | v :: rest =>
      String (digit (Z.shiftr (proto.val v) 4))
        (String (digit (Z.land (proto.val v) 15)) (EncodeToString rest))
  end.

End hex.

Module time.

(** A reading of the wall clock: seconds since the epoch and
    nanoseconds within the second. *)
Record Time := {
  sec : Z;
  nsec : Z
}.

(** A [Duration] is an [int64] count of nanoseconds. *)
Definition Second : Z := 1000000000.
Definition Minute : Z := 60 * Second.

(** [t.Add(d)] *)
Definition Add (t : Time) (d : Z) : Time :=
  let dsec := Z.quot d 1000000000 in
  let n := nsec t + Z.rem d 1000000000 in
  if 1000000000 <=? n then {| sec := sec t + dsec + 1; nsec := n - 1000000000 |}
  else if n <? 0 then {| sec := sec t + dsec - 1; nsec := n + 1000000000 |}
  else {| sec := sec t + dsec; nsec := n |}.

(** [t.Unix()] *)
Definition Unix (t : Time) : Z := sec t.

End time.

Module sort.

Section Slice.

Context {A : Type} (less : A -> A -> bool).

(** One round of the insertion sort of the library, [for j := i; j > a
    && less(j, j-1); j--], on the sorted part kept with its last element
    first: the new element moves down while it is less than its
    neighbour. *)
Fixpoint sift (x : A) (sorted_rev : list A) : list A :=
  match sorted_rev with
  | [] => [x]
  | y :: rest => if less x y then y :: sift x rest else x :: sorted_rev
  end.

(** [sort.Slice(l, less)].  The library promises the order of the
    result and nothing about elements that compare equal; the model is
    its insertion sort. *)
Definition Slice (l : list A) : list A :=
  rev (fold_left (fun sorted_rev x => sift x sorted_rev) l []).

(** The sorted part, last element first: no element is less than the
    one after it in this order. *)
Definition down (l : list A) : Prop := Sorted (fun u v => less u v = false) l.

End Slice.

End sort.

(** ** The payment record *)

(** [paymentType] and its four constants. *)
Inductive paymentType :=
| sentPayment
| receivedPayment
| depositPayment
| withdrawalPayment.

Definition defaultInvoiceExpiry : Z := 3600.

Record paymentInfo := {
  Type_ : paymentType;
  Amount : Z;
  CreationTimestamp : Z;
  Description : string;
  PayeeName : string;
  PayeeImageURL : string;
  PayerName : string;
  PayerImageURL : string;
  TransferRequest : bool;
  PaymentHash : string;
  RedeemTxID : string;
  Destination : string;
  PendingExpirationHeight : Z;
  PendingExpirationTimestamp : Z
}.

(** ** The collaborators

    What the node answers, what the database answers, the readiness of
    the daemon, the configured routing node, the protobuf runtime and
    the clock.  A response is fixed for the length of one call of the
    functions below. *)

Inductive Result (A : Type) :=
| Success (a : A)
| Failure (e : error).

Arguments Success {A} a.
Arguments Failure {A} e.

Record Env := {
  (** lightningClient *)
  ListPayments : Result (list lnrpc.Payment);
  ListChannels : Result (list lnrpc.Channel);
  GetInfo : Result lnrpc.GetInfoResponse;
  DecodePayReq : string -> Result lnrpc.PayReq;
  LookupInvoice : lnrpc.PaymentHashReq -> Result lnrpc.Invoice;
  AddInvoice_rpc : lnrpc.Invoice -> Result string;
  (** the database: the saved payment requests, and failures of the
      payments bucket *)
  fetchPaymentRequest_db : string -> Result (list byte);
  fetchAllAccountPayments_err : option error;
  addAccountPayment_err : paymentInfo -> option error;
  (** DaemonReady() and cfg.RoutingNodePubKey *)
  DaemonReady : bool;
  RoutingNodePubKey : string;
  (** proto.Marshal and proto.Unmarshal on an [InvoiceMemo] *)
  proto_Marshal : data.InvoiceMemo -> list byte * option error;
  proto_Unmarshal : list byte -> data.InvoiceMemo * option error;
  (** time.Now(), reading after reading *)
  clock : nat -> time.Time
}.

(** The state the code reads and writes: the persisted records, the two
    cursors, and the number of clock readings so far. *)
Record World := {
  payments : list paymentInfo;
  lastSentPaymentTime : Z;
  lastSettledIndex : Z;
  ticks : nat
}.

(** What the code asks of its collaborators, in order. *)
Inductive Event :=
| CallListPayments
| CallListChannels
| CallGetInfo
| CallDecodePayReq (payReq : string)
| CallLookupInvoice (hash : lnrpc.PaymentHashReq)
| CallAddInvoice (invoice : lnrpc.Invoice)
| CallFetchPaymentRequest (hash : string)
| CallFetchAllAccountPayments
| CallFetchPaymentsSyncInfo
| CallAddAccountPayment (p : paymentInfo) (receivedIndex sentTime : Z)
| Notification (t : data.NotificationType)
| AccountChanged
| BackupScheduled.

(** ** The monad of the code

    A computation takes the world and gives a result, the new world
    and the events it caused.  A result is a value, an error returned
    to the caller, or a panic (a nil pointer dereferenced, an index out
    of range). *)

Inductive Res (A : Type) :=
| Ok (a : A)
| Err (e : error)
| Panic.

Arguments Ok {A} a.
Arguments Err {A} e.
Arguments Panic {A}.

Record Out (A : Type) := {
  res : Res A;
  world : World;
  events : list Event
}.

Arguments res {A} o.
Arguments world {A} o.
Arguments events {A} o.

Definition M (A : Type) : Type := World -> Out A.

Definition ret {A : Type} (a : A) : M A :=
  fun w => {| res := Ok a; world := w; events := [] |}.

Definition fail {A : Type} (e : error) : M A :=
  fun w => {| res := Err e; world := w; events := [] |}.

Definition panic {A : Type} : M A :=
  fun w => {| res := Panic; world := w; events := [] |}.

Definition bind {A B : Type} (m : M A) (k : A -> M B) : M B :=
  fun w =>
    let o := m w in
    match res o with
    | Ok a =>
        let o' := k a (world o) in
        {| res := res o'; world := world o'; events := events o ++ events o' |}
    | Err e => {| res := Err e; world := world o; events := events o |}
    | Panic => {| res := Panic; world := world o; events := events o |}
    end.

Notation "x <- m ;; k" := (bind m (fun x => k))
  (at level 61, m at next level, right associativity).
Notation "m ;;; k" := (bind m (fun _ => k))
  (at level 61, right associativity).

Definition emit (ev : Event) : M unit :=
  fun w => {| res := Ok tt; world := w; events := [ev] |}.

(** A call to a collaborator: the event, then its answer. *)
Definition call {A : Type} (ev : Event) (r : Result A) : M A :=
  emit ev ;;;
  match r with
  | Success a => ret a
  | Failure e => fail e
  end.

(** [err = f()]: the error of [f] as a value. *)
Definition attempt (m : M unit) : M (option error) :=
  fun w =>
    let o := m w in
    match res o with
    | Ok _ => {| res := Ok None; world := world o; events := events o |}
    | Err e => {| res := Ok (Some e); world := world o; events := events o |}
    | Panic => {| res := Panic; world := world o; events := events o |}
    end.

(** [f()] with the error it returns dropped. *)
Definition discard (m : M unit) : M unit :=
  attempt m ;;; ret tt.

(** [p.field] on a pointer: a panic when the pointer is nil. *)
Definition deref {A : Type} (p : option A) : M A :=
  match p with
  | Some a => ret a
  | None => panic
  end.

(** [a[i]] on a slice: a panic when the index is out of range. *)
Definition index {A : Type} (a : list A) (i : nat) : M A :=
  match nth_error a i with
  | Some x => ret x
  | None => panic
  end.

(** [for _, x := range l { ... }] *)
Fixpoint for_range {A : Type} (l : list A) (body : A -> M unit) : M unit :=
  match l with
  | [] => ret tt
  | x :: rest => body x ;;; for_range rest body
  end.

(** A loop that appends one result an item. *)
Fixpoint for_append {A B : Type} (l : list A) (body : A -> M B) (acc : list B)
  : M (list B) :=
  match l with
  | [] => ret acc
  | x :: rest => y <- body x ;; for_append rest body (acc ++ [y])
  end.

(** [time.Now()] *)
Definition time_Now (env : Env) : M time.Time :=
  fun w =>
    {| res := Ok (clock env (ticks w));
       world := {| payments := payments w;
                   lastSentPaymentTime := lastSentPaymentTime w;
                   lastSettledIndex := lastSettledIndex w;
                   ticks := S (ticks w) |};
       events := [] |}.

(** ** The database (db.go) *)

(** Modelled from the spec: [addAccountPayment], [fetchPaymentsSyncInfo]
    and [fetchAllAccountPayments] of db.go, which is not among the
    sources.  A record is inserted by its payment hash, and a record
    whose hash is already there is left as it is (no duplicate, no
    update, no error); the cursor of sent payments and the settle index
    only move forward, to the values handed over. *)
Definition insert_by_hash (p : paymentInfo) (l : list paymentInfo) : list paymentInfo :=
  if existsb (fun q => String.eqb (PaymentHash q) (PaymentHash p)) l
  then l
  else l ++ [p].

Definition addAccountPayment (env : Env) (accPayment : paymentInfo)
    (receivedIndex sentTime : Z) : M unit :=
  emit (CallAddAccountPayment accPayment receivedIndex sentTime) ;;;
  match addAccountPayment_err env accPayment with
  | Some e => fail e
  | None =>
      fun w =>
        {| res := Ok tt;
           world := {| payments := insert_by_hash accPayment (payments w);
                       lastSentPaymentTime := Z.max (lastSentPaymentTime w) sentTime;
                       lastSettledIndex := Z.max (lastSettledIndex w) receivedIndex;
                       ticks := ticks w |};
           events := [] |}
  end.

Definition fetchPaymentsSyncInfo : M (Z * Z) :=
  emit CallFetchPaymentsSyncInfo ;;;
  fun w =>
    {| res := Ok (lastSentPaymentTime w, lastSettledIndex w);
       world := w; events := [] |}.

Definition fetchAllAccountPayments (env : Env) : M (list paymentInfo) :=
  emit CallFetchAllAccountPayments ;;;
  match fetchAllAccountPayments_err env with
  | Some e => fail e
  | None => fun w => {| res := Ok (payments w); world := w; events := [] |}
  end.

Definition fetchPaymentRequest (env : Env) (payReqHash : string) : M (list byte) :=
  call (CallFetchPaymentRequest payReqHash) (fetchPaymentRequest_db env payReqHash).

Definition onAccountChanged : M unit := emit AccountChanged.

(** [go func() { time.Sleep(2 * time.Second); extractBackupPaths() }()] *)
Definition scheduleBackup : M unit := emit BackupScheduled.


(** ** payments.go *)

Section Payments.

Variable env : Env.

Definition separator : string := " | ".

(** [AddInvoice] *)
Definition AddInvoice (invoice : data.InvoiceMemo) : M string :=
  let '(memo, err) := proto_Marshal env invoice in
  match err with
  | Some e => fail e
  | None =>
      let invoiceExpiry :=
        if data.Expiry invoice <=? 0 then defaultInvoiceExpiry
        else data.Expiry invoice in
      let request :=
        {| lnrpc.Invoice_Memo := string_of_list_byte memo;
           lnrpc.Invoice_Value := data.Amount invoice;
           lnrpc.Invoice_Expiry := invoiceExpiry;
           lnrpc.Invoice_Private := true;
           lnrpc.Invoice_PaymentRequest := "";
           lnrpc.Invoice_RHash := [];
           lnrpc.Invoice_Settled := false;
           lnrpc.Invoice_AmtPaidSat := 0;
           lnrpc.Invoice_SettleDate := 0;
           lnrpc.Invoice_SettleIndex := 0 |} in
      call (CallAddInvoice request) (AddInvoice_rpc env request)
  end.

(** [AddStandardInvoice] *)
Definition AddStandardInvoice (invoice : data.InvoiceMemo) : M string :=
  let memo :=
    (data.Description invoice ++ separator ++ data.PayeeName invoice
       ++ separator ++ data.PayeeImageURL invoice)%string in
  let expiry :=
    if data.Expiry invoice <=? 0 then defaultInvoiceExpiry
    else data.Expiry invoice in
  let request :=
    {| lnrpc.Invoice_Memo := memo;
       lnrpc.Invoice_Value := data.Amount invoice;
       lnrpc.Invoice_Expiry := expiry;
       lnrpc.Invoice_Private := true;
       lnrpc.Invoice_PaymentRequest := "";
       lnrpc.Invoice_RHash := [];
       lnrpc.Invoice_Settled := false;
       lnrpc.Invoice_AmtPaidSat := 0;
       lnrpc.Invoice_SettleDate := 0;
       lnrpc.Invoice_SettleIndex := 0 |} in
  call (CallAddInvoice request) (AddInvoice_rpc env request).

(** The branch of [DecodePaymentRequest] taken when the description
    cannot be unmarshalled; [invoiceMemo] is the message as the failed
    unmarshal left it. *)
Definition decodeStandardInvoice (decodedPayReq : lnrpc.PayReq)
    (invoiceMemo : data.InvoiceMemo) : M data.InvoiceMemo :=
  let description := lnrpc.PayReq_Description decodedPayReq in
  invoiceMemo <-
    (if (strings.Count description separator =? 2)%nat then
       let invoiceData := strings.Split description separator in
       d0 <- index invoiceData 0 ;;
       d1 <- index invoiceData 1 ;;
       d2 <- index invoiceData 2 ;;
       ret (data.set_PayeeImageURL d2
              (data.set_PayeeName d1 (data.set_Description d0 invoiceMemo)))
     else ret (data.set_Description description invoiceMemo)) ;;
  ret (data.set_Amount (lnrpc.NumSatoshis decodedPayReq) invoiceMemo).

(** [DecodePaymentRequest] *)
Definition DecodePaymentRequest (paymentRequest : string) : M data.InvoiceMemo :=
  decodedPayReq <- call (CallDecodePayReq paymentRequest)
                        (DecodePayReq env paymentRequest) ;;
  let '(invoiceMemo, err) :=
    proto_Unmarshal env
      (list_byte_of_string (lnrpc.PayReq_Description decodedPayReq)) in
  match err with
  | Some _ => decodeStandardInvoice decodedPayReq invoiceMemo
  | None => ret invoiceMemo
  end.

(** [GetRelatedInvoice] *)
Definition GetRelatedInvoice (paymentRequest : string) : M data.Invoice :=
  decodedPayReq <- call (CallDecodePayReq paymentRequest)
                        (DecodePayReq env paymentRequest) ;;
  let '(invoiceMemo, err) :=
    proto_Unmarshal env
      (list_byte_of_string (lnrpc.PayReq_Description decodedPayReq)) in
  match err with
  | Some e => fail e
  | None =>
      let hash := {| lnrpc.RHashStr := lnrpc.PaymentHash decodedPayReq;
                     lnrpc.RHash := [] |} in
      lookup <- call (CallLookupInvoice hash) (LookupInvoice env hash) ;;
      ret {| data.Invoice_Memo := invoiceMemo;
             data.Invoice_AmtPaid := lnrpc.Invoice_AmtPaidSat lookup;
             data.Invoice_Settled := lnrpc.Invoice_Settled lookup |}
  end.

(** [onNewSentPayment] *)
Definition onNewSentPayment (paymentItem : lnrpc.Payment) : M unit :=
  paymentRequest <- fetchPaymentRequest env (lnrpc.Payment_PaymentHash paymentItem) ;;
  invoiceMemo <-
    (if (0 <? List.length paymentRequest)%nat then
       memo <- DecodePaymentRequest (string_of_list_byte paymentRequest) ;;
       ret (Some memo)
     else ret None) ;;
  decodedReq <- call (CallDecodePayReq (string_of_list_byte paymentRequest))
                     (DecodePayReq env (string_of_list_byte paymentRequest)) ;;
  let paymentType :=
    if String.eqb (lnrpc.Destination decodedReq) (RoutingNodePubKey env)
    then withdrawalPayment else sentPayment in
  memo <- deref invoiceMemo ;;
  let paymentData :=
    {| Type_ := paymentType;
       Amount := lnrpc.Payment_Value paymentItem;
       CreationTimestamp := lnrpc.Payment_CreationDate paymentItem;
       Description := data.Description memo;
       PayeeName := data.PayeeName memo;
       PayeeImageURL := data.PayeeImageURL memo;
       PayerName := data.PayerName memo;
       PayerImageURL := data.PayerImageURL memo;
       TransferRequest := data.TransferRequest memo;
       PaymentHash := lnrpc.PaymentHash decodedReq;
       RedeemTxID := "";
       Destination := lnrpc.Destination decodedReq;
       PendingExpirationHeight := 0;
       PendingExpirationTimestamp := 0 |} in
  err <- attempt (addAccountPayment env paymentData 0
                    (GoInt.uint64 (lnrpc.Payment_CreationDate paymentItem))) ;;
  scheduleBackup ;;;
  onAccountChanged ;;;
  match err with
  | Some e => fail e
  | None => ret tt
  end.

(** [onNewReceivedPayment] *)
Definition onNewReceivedPayment (invoice : lnrpc.Invoice) : M unit :=
  invoiceMemo <-
    (if (0 <? String.length (lnrpc.Invoice_PaymentRequest invoice))%nat then
       memo <- DecodePaymentRequest (lnrpc.Invoice_PaymentRequest invoice) ;;
       ret (Some memo)
     else ret None) ;;
  memo <- deref invoiceMemo ;;
  let paymentType :=
    if data.TransferRequest memo then depositPayment else receivedPayment in
  let paymentData :=
    {| Type_ := paymentType;
       Amount := lnrpc.Invoice_AmtPaidSat invoice;
       CreationTimestamp := lnrpc.Invoice_SettleDate invoice;
       Description := data.Description memo;
       PayeeName := data.PayeeName memo;
       PayeeImageURL := data.PayeeImageURL memo;
       PayerName := data.PayerName memo;
       PayerImageURL := data.PayerImageURL memo;
       TransferRequest := data.TransferRequest memo;
       PaymentHash := hex.EncodeToString (lnrpc.Invoice_RHash invoice);
       RedeemTxID := "";
       Destination := "";
       PendingExpirationHeight := 0;
       PendingExpirationTimestamp := 0 |} in
  addAccountPayment env paymentData (lnrpc.Invoice_SettleIndex invoice) 0 ;;;
  emit (Notification data.NotificationEvent_INVOICE_PAID) ;;;
  scheduleBackup ;;;
  onAccountChanged.

(** The loop of [watchPayments] over the events the subscription
    delivers: it stops at the first receive error and at the first
    settled invoice that cannot be recorded. *)
Fixpoint watchPayments_loop (stream : list (Result lnrpc.Invoice)) : M unit :=
  match stream with
  | [] => ret tt
  | Failure _ :: _ => ret tt
  | Success invoice :: rest =>
      if lnrpc.Invoice_Settled invoice then
        err <- attempt (onNewReceivedPayment invoice) ;;
        match err with
        | Some _ => ret tt
        | None => watchPayments_loop rest
        end
      else watchPayments_loop rest
  end.

(** The body of the loop of [syncSentPayments]. *)
Definition syncSentPayments_body (lastPaymentTime : Z)
    (paymentItem : lnrpc.Payment) : M unit :=
  if lnrpc.Payment_CreationDate paymentItem <=? lastPaymentTime then ret tt
  else discard (onNewSentPayment paymentItem).

(** [syncSentPayments] *)
Definition syncSentPayments : M unit :=
  lightningPayments <- call CallListPayments (ListPayments env) ;;
  sync <- fetchPaymentsSyncInfo ;;
  let lastPaymentTime := fst sync in
  for_range lightningPayments (syncSentPayments_body lastPaymentTime).

(** [minutesToExpire := time.Duration((htlc.ExpirationHeight -
    currentBlockHeight) * 10)]: the difference and the product are
    computed in [uint32]. *)
Definition minutesToExpire (htlc : lnrpc.HTLC) (currentBlockHeight : Z) : Z :=
  GoInt.uint32 (GoInt.uint32 (lnrpc.ExpirationHeight htlc - currentBlockHeight) * 10).

(** [time.Now().Add(minutesToExpire * time.Minute).Unix()]: the product
    is computed in [int64]. *)
Definition pendingExpirationTimestamp (now : time.Time) (minutes : Z) : Z :=
  time.Unix (time.Add now (GoInt.int64 (minutes * time.Minute))).

(** [createPendingPayment] *)
Definition createPendingPayment (htlc : lnrpc.HTLC) (currentBlockHeight : Z)
  : M paymentInfo :=
  let paymentType := if lnrpc.Incoming htlc then receivedPayment else sentPayment in
  paymentRequest <-
    (if lnrpc.Incoming htlc then
       let hash := {| lnrpc.RHashStr := ""; lnrpc.RHash := lnrpc.HashLock htlc |} in
       invoice <- call (CallLookupInvoice hash) (LookupInvoice env hash) ;;
       ret (lnrpc.Invoice_PaymentRequest invoice)
     else
       payReqBytes <- fetchPaymentRequest env (string_of_list_byte (lnrpc.HashLock htlc)) ;;
       ret (string_of_list_byte payReqBytes)) ;;
  let minutes := minutesToExpire htlc currentBlockHeight in
  now1 <- time_Now env ;;
  now2 <- time_Now env ;;
  let paymentData :=
    {| Type_ := paymentType;
       Amount := lnrpc.HTLC_Amount htlc;
       CreationTimestamp := time.Unix now1;
       Description := "";
       PayeeName := "";
       PayeeImageURL := "";
       PayerName := "";
       PayerImageURL := "";
       TransferRequest := false;
       PaymentHash := "";
       RedeemTxID := "";
       Destination := "";
       PendingExpirationHeight := lnrpc.ExpirationHeight htlc;
       PendingExpirationTimestamp := pendingExpirationTimestamp now2 minutes |} in
  if String.eqb paymentRequest "" then ret paymentData
  else
    decodedReq <- call (CallDecodePayReq paymentRequest)
                       (DecodePayReq env paymentRequest) ;;
    invoiceMemo <- DecodePaymentRequest paymentRequest ;;
    ret {| Type_ := Type_ paymentData;
           Amount := Amount paymentData;
           CreationTimestamp := lnrpc.Timestamp decodedReq;
           Description := data.Description invoiceMemo;
           PayeeName := data.PayeeName invoiceMemo;
           PayeeImageURL := data.PayeeImageURL invoiceMemo;
           PayerName := data.PayerName invoiceMemo;
           PayerImageURL := data.PayerImageURL invoiceMemo;
           TransferRequest := data.TransferRequest invoiceMemo;
           PaymentHash := lnrpc.PaymentHash decodedReq;
           RedeemTxID := RedeemTxID paymentData;
           Destination := lnrpc.Destination decodedReq;
           PendingExpirationHeight := PendingExpirationHeight paymentData;
           PendingExpirationTimestamp := PendingExpirationTimestamp paymentData |}.

(** The HTLCs the two loops of [getPendingPayments] visit, in order. *)
Definition pendingHtlcs (channels : list lnrpc.Channel) : list lnrpc.HTLC :=
  flat_map lnrpc.PendingHtlcs channels.

(** [getPendingPayments] *)
Definition getPendingPayments : M (list paymentInfo) :=
  if DaemonReady env then
    channels <- call CallListChannels (ListChannels env) ;;
    chainInfo <- call CallGetInfo (GetInfo env) ;;
    for_append (pendingHtlcs channels)
      (fun htlc => createPendingPayment htlc (lnrpc.BlockHeight chainInfo)) []
  else ret [].

(** The item [GetPayments] builds for a record. *)
Definition paymentItem (payment : paymentInfo) : data.Payment :=
  {| data.Payment_Type :=
       match Type_ payment with
       | sentPayment => data.Payment_SENT
       | receivedPayment => data.Payment_RECEIVED
       | depositPayment => data.Payment_DEPOSIT
       | withdrawalPayment => data.Payment_WITHDRAWAL
       end;
     data.Payment_Amount := Amount payment;
     data.Payment_CreationTimestamp := CreationTimestamp payment;
     data.Payment_InvoiceMemo :=
       {| data.Description := Description payment;
          data.Amount := Amount payment;
          data.PayeeName := PayeeName payment;
          data.PayeeImageURL := PayeeImageURL payment;
          data.PayerName := PayerName payment;
          data.PayerImageURL := PayerImageURL payment;
          data.TransferRequest := TransferRequest payment;
          data.Expiry := 0 |};
     data.Payment_RedeemTxID := RedeemTxID payment;
     data.Payment_PaymentHash := PaymentHash payment;
     data.Payment_Destination := Destination payment;
     data.Payment_PendingExpirationHeight := PendingExpirationHeight payment;
     data.Payment_PendingExpirationTimestamp := PendingExpirationTimestamp payment |}.

(** The comparison handed to [sort.Slice]. *)
Definition newer (a b : data.Payment) : bool :=
  data.Payment_CreationTimestamp b <? data.Payment_CreationTimestamp a.

(** [GetPayments] *)
Definition GetPayments : M (list data.Payment) :=
  rawPayments <- fetchAllAccountPayments env ;;
  pendingPayments <- getPendingPayments ;;
  let rawPayments := rawPayments ++ pendingPayments in
  let paymentsList := map paymentItem rawPayments in
  ret (sort.Slice newer paymentsList).

End Payments.

(** The test of the loop of [syncSentPayments], as a filter: the items
    that are handed to [onNewSentPayment]. *)
Definition newer_than (cursor : Z) (p : lnrpc.Payment) : bool :=
  cursor <? lnrpc.Payment_CreationDate p.

(** A lookup that [createPendingPayment] makes for an HTLC and that
    fails: the invoice of an incoming HTLC, the saved request of an
    outgoing one, or the decoding of the request that was found. *)
Inductive lookup_fails (env : Env) (htlc : lnrpc.HTLC) : Prop :=
| invoice_lookup_fails e :
    lnrpc.Incoming htlc = true ->
    LookupInvoice env {| lnrpc.RHashStr := ""; lnrpc.RHash := lnrpc.HashLock htlc |}
      = Failure e ->
    lookup_fails env htlc
| request_lookup_fails e :
    lnrpc.Incoming htlc = false ->
    fetchPaymentRequest_db env (string_of_list_byte (lnrpc.HashLock htlc))
      = Failure e ->
    lookup_fails env htlc
| incoming_decode_fails invoice e :
    lnrpc.Incoming htlc = true ->
    LookupInvoice env {| lnrpc.RHashStr := ""; lnrpc.RHash := lnrpc.HashLock htlc |}
      = Success invoice ->
    lnrpc.Invoice_PaymentRequest invoice <> "" ->
    DecodePayReq env (lnrpc.Invoice_PaymentRequest invoice) = Failure e ->
    lookup_fails env htlc
| outgoing_decode_fails payReqBytes e :
    lnrpc.Incoming htlc = false ->
    fetchPaymentRequest_db env (string_of_list_byte (lnrpc.HashLock htlc))
      = Success payReqBytes ->
    string_of_list_byte payReqBytes <> "" ->
    DecodePayReq env (string_of_list_byte payReqBytes) = Failure e ->
    lookup_fails env htlc.

(** ** A small node

    A node with two payments in its ledger, one channel and a few
    payment requests, and worlds to run the code in. *)

Definition example_memo : data.InvoiceMemo :=
  {| data.Description := "coffee"; data.Amount := 1500;
     data.PayeeName := "Bob"; data.PayeeImageURL := "http://img/bob.png";
     data.PayerName := ""; data.PayerImageURL := "";
     data.TransferRequest := true; data.Expiry := 3600 |}.

Definition example_DecodePayReq (payReq : string) : Result lnrpc.PayReq :=
  if String.eqb payReq "lnbc-legacy" then
    Success {| lnrpc.Destination := "02routing"; lnrpc.PaymentHash := "h-legacy";
               lnrpc.NumSatoshis := 1500; lnrpc.Timestamp := 1540000000;
               lnrpc.PayReq_Description := "Coffee | Bob | http://img/bob.png" |}
  else if String.eqb payReq "lnbc-text" then
    Success {| lnrpc.Destination := "03peer"; lnrpc.PaymentHash := "h-text";
               lnrpc.NumSatoshis := 700; lnrpc.Timestamp := 1540000100;
               lnrpc.PayReq_Description := "thanks for lunch" |}
  else if String.eqb payReq "lnbc-memo" then
    Success {| lnrpc.Destination := "03peer"; lnrpc.PaymentHash := "h-memo";
               lnrpc.NumSatoshis := 1500; lnrpc.Timestamp := 1540000200;
               lnrpc.PayReq_Description :=
                 string_of_list_byte (fst (proto.Marshal example_memo)) |}
  else Failure "invalid payment request".

Definition example_fetchPaymentRequest (hash : string) : Result (list byte) :=
  if String.eqb hash "h-legacy" then Success (list_byte_of_string "lnbc-legacy")
  else if String.eqb hash "h-text" then Success (list_byte_of_string "lnbc-text")
  else if String.eqb hash "h-garbled" then Success (list_byte_of_string "lnbc-garbled")
  else if String.eqb hash (string_of_list_byte [x02]) then Success (list_byte_of_string "lnbc-text")
  else Failure "payment request not found".

Definition example_invoice (paymentRequest : string) (settleIndex : Z) : lnrpc.Invoice :=
  {| lnrpc.Invoice_Memo := ""; lnrpc.Invoice_Value := 1500;
     lnrpc.Invoice_Expiry := 3600; lnrpc.Invoice_Private := true;
     lnrpc.Invoice_PaymentRequest := paymentRequest;
     lnrpc.Invoice_RHash := [x0a; xff];
     lnrpc.Invoice_Settled := true; lnrpc.Invoice_AmtPaidSat := 1500;
     lnrpc.Invoice_SettleDate := 1540000300;
     lnrpc.Invoice_SettleIndex := settleIndex |}.

Definition example_LookupInvoice (hash : lnrpc.PaymentHashReq) : Result lnrpc.Invoice :=
  match lnrpc.RHash hash with
  | [x01] => Success (example_invoice "lnbc-memo" 0)
  | _ => Failure "unable to locate invoice"
  end.

Definition htlc_incoming : lnrpc.HTLC :=
  {| lnrpc.Incoming := true; lnrpc.HTLC_Amount := 1500;
     lnrpc.HashLock := [x01]; lnrpc.ExpirationHeight := 106 |}.

Definition htlc_outgoing : lnrpc.HTLC :=
  {| lnrpc.Incoming := false; lnrpc.HTLC_Amount := 700;
     lnrpc.HashLock := [x02]; lnrpc.ExpirationHeight := 140 |}.

Definition htlc_unknown : lnrpc.HTLC :=
  {| lnrpc.Incoming := true; lnrpc.HTLC_Amount := 50;
     lnrpc.HashLock := [x09]; lnrpc.ExpirationHeight := 120 |}.

(** An HTLC one block past its expiration at height 100. *)
Definition htlc_expired : lnrpc.HTLC :=
  {| lnrpc.Incoming := false; lnrpc.HTLC_Amount := 700;
     lnrpc.HashLock := [x02]; lnrpc.ExpirationHeight := 99 |}.

Definition example_env_with (ready : bool) (htlcs : list lnrpc.HTLC) : Env :=
  {| ListPayments :=
       Success [ {| lnrpc.Payment_PaymentHash := "h-garbled";
                    lnrpc.Payment_Value := 5;
                    lnrpc.Payment_CreationDate := 10 |};
                 {| lnrpc.Payment_PaymentHash := "h-legacy";
                    lnrpc.Payment_Value := 1500;
                    lnrpc.Payment_CreationDate := 20 |} ];
     ListChannels := Success [ {| lnrpc.PendingHtlcs := htlcs |} ];
     GetInfo := Success {| lnrpc.BlockHeight := 100 |};
     DecodePayReq := example_DecodePayReq;
     LookupInvoice := example_LookupInvoice;
     AddInvoice_rpc := fun _ => Success "lnbc-memo";
     fetchPaymentRequest_db := example_fetchPaymentRequest;
     fetchAllAccountPayments_err := None;
     addAccountPayment_err := fun _ => None;
     DaemonReady := ready;
     RoutingNodePubKey := "02routing";
     proto_Marshal := proto.Marshal;
     proto_Unmarshal := proto.Unmarshal;
     clock := fun n => {| time.sec := 1540000000 + Z.of_nat n; time.nsec := 0 |} |}.

Definition example_env : Env := example_env_with true [htlc_incoming; htlc_outgoing].

Definition payment1 : paymentInfo :=
  {| Type_ := receivedPayment; Amount := 10; CreationTimestamp := 14;
     Description := "Received Payment1"; PayeeName := ""; PayeeImageURL := "";
     PayerName := ""; PayerImageURL := ""; TransferRequest := false;
     PaymentHash := "h1"; RedeemTxID := ""; Destination := "";
     PendingExpirationHeight := 0; PendingExpirationTimestamp := 0 |}.

Definition payment2 : paymentInfo :=
  {| Type_ := receivedPayment; Amount := 10; CreationTimestamp := 15;
     Description := "Received Payment2"; PayeeName := ""; PayeeImageURL := "";
     PayerName := ""; PayerImageURL := ""; TransferRequest := false;
     PaymentHash := "h2"; RedeemTxID := ""; Destination := "";
     PendingExpirationHeight := 0; PendingExpirationTimestamp := 0 |}.

Definition empty_world : World :=
  {| payments := []; lastSentPaymentTime := 0; lastSettledIndex := 0; ticks := 0 |}.

Definition synced_world : World :=
  {| payments := [payment1; payment2]; lastSentPaymentTime := 20;
     lastSettledIndex := 5; ticks := 0 |}.

(** ** More of payments.go *)

(** A text without the byte ['|']. *)
Fixpoint no_bar (s : string) : bool :=
  match s with
  | EmptyString => true
  | String c s' => negb (Ascii.eqb c "|"%char) && no_bar s'
  end.

(** The memo [AddStandardInvoice] writes (line 172). *)
Definition standardMemo (invoice : data.InvoiceMemo) : string :=
  (data.Description invoice ++ separator ++ data.PayeeName invoice
     ++ separator ++ data.PayeeImageURL invoice)%string.

(** Modelled from the spec: [savePaymentRequest] of db.go, which is not
    among the sources: the text saved under a hash is what
    [fetchPaymentRequest] returns for that hash afterwards. *)
Definition with_saved_request (env : Env) (hash : string) (request : list byte) : Env :=
  {| ListPayments := ListPayments env;
     ListChannels := ListChannels env;
     GetInfo := GetInfo env;
     DecodePayReq := DecodePayReq env;
     LookupInvoice := LookupInvoice env;
     AddInvoice_rpc := AddInvoice_rpc env;
     fetchPaymentRequest_db :=
       fun h => if String.eqb h hash then Success request
                else fetchPaymentRequest_db env h;
     fetchAllAccountPayments_err := fetchAllAccountPayments_err env;
     addAccountPayment_err := addAccountPayment_err env;
     DaemonReady := DaemonReady env;
     RoutingNodePubKey := RoutingNodePubKey env;
     proto_Marshal := proto_Marshal env;
     proto_Unmarshal := proto_Unmarshal env;
     clock := clock env |}.

Section SendPayment.

Variable env : Env.

(** What the database answers to [savePaymentRequest], and what the node
    answers to [SendPaymentSync]: an error of the call, or the response
    with its [PaymentError].  The two calls leave no event of their
    own. *)
Variable savePaymentRequest_err : string -> list byte -> option error.
Variable SendPaymentSync : string -> Z -> Result string.

(** [SendPaymentForRequest] *)
Definition SendPaymentForRequest (paymentRequest : string) (amountSatoshi : Z)
  : M unit :=
  decodedReq <- call (CallDecodePayReq paymentRequest)
                     (DecodePayReq env paymentRequest) ;;
  match savePaymentRequest_err (lnrpc.PaymentHash decodedReq)
          (list_byte_of_string paymentRequest) with
  | Some e => fail e
  | None =>
      match SendPaymentSync paymentRequest amountSatoshi with
      | Failure e => fail e
      | Success paymentError =>
          if (0 <? String.length paymentError)%nat then fail paymentError
          else
            discard (syncSentPayments
                       (with_saved_request env (lnrpc.PaymentHash decodedReq)
                          (list_byte_of_string paymentRequest))) ;;;
            ret tt
      end
  end.

End SendPayment.

(** *** More nodes *)

Definition with_DecodePayReq (env : Env) (f : string -> Result lnrpc.PayReq) : Env :=
  {| ListPayments := ListPayments env;
     ListChannels := ListChannels env;
     GetInfo := GetInfo env;
     DecodePayReq := f;
     LookupInvoice := LookupInvoice env;
     AddInvoice_rpc := AddInvoice_rpc env;
     fetchPaymentRequest_db := fetchPaymentRequest_db env;
     fetchAllAccountPayments_err := fetchAllAccountPayments_err env;
     addAccountPayment_err := addAccountPayment_err env;
     DaemonReady := DaemonReady env;
     RoutingNodePubKey := RoutingNodePubKey env;
     proto_Marshal := proto_Marshal env;
     proto_Unmarshal := proto_Unmarshal env;
     clock := clock env |}.

Definition with_LookupInvoice (env : Env)
    (f : lnrpc.PaymentHashReq -> Result lnrpc.Invoice) : Env :=
  {| ListPayments := ListPayments env;
     ListChannels := ListChannels env;
     GetInfo := GetInfo env;
     DecodePayReq := DecodePayReq env;
     LookupInvoice := f;
     AddInvoice_rpc := AddInvoice_rpc env;
     fetchPaymentRequest_db := fetchPaymentRequest_db env;
     fetchAllAccountPayments_err := fetchAllAccountPayments_err env;
     addAccountPayment_err := addAccountPayment_err env;
     DaemonReady := DaemonReady env;
     RoutingNodePubKey := RoutingNodePubKey env;
     proto_Marshal := proto_Marshal env;
     proto_Unmarshal := proto_Unmarshal env;
     clock := clock env |}.

Definition with_store_errors (env : Env) (read : option error)
    (write : paymentInfo -> option error) : Env :=
  {| ListPayments := ListPayments env;
     ListChannels := ListChannels env;
     GetInfo := GetInfo env;
     DecodePayReq := DecodePayReq env;
     LookupInvoice := LookupInvoice env;
     AddInvoice_rpc := AddInvoice_rpc env;
     fetchPaymentRequest_db := fetchPaymentRequest_db env;
     fetchAllAccountPayments_err := read;
     addAccountPayment_err := write;
     DaemonReady := DaemonReady env;
     RoutingNodePubKey := RoutingNodePubKey env;
     proto_Marshal := proto_Marshal env;
     proto_Unmarshal := proto_Unmarshal env;
     clock := clock env |}.

Definition with_ListPayments (env : Env) (r : Result (list lnrpc.Payment)) : Env :=
  {| ListPayments := r;
     ListChannels := ListChannels env;
     GetInfo := GetInfo env;
     DecodePayReq := DecodePayReq env;
     LookupInvoice := LookupInvoice env;
     AddInvoice_rpc := AddInvoice_rpc env;
     fetchPaymentRequest_db := fetchPaymentRequest_db env;
     fetchAllAccountPayments_err := fetchAllAccountPayments_err env;
     addAccountPayment_err := addAccountPayment_err env;
     DaemonReady := DaemonReady env;
     RoutingNodePubKey := RoutingNodePubKey env;
     proto_Marshal := proto_Marshal env;
     proto_Unmarshal := proto_Unmarshal env;
     clock := clock env |}.

(** A payment request whose free text starts like a transfer flag. *)
Definition lollipops_DecodePayReq (payReq : string) : Result lnrpc.PayReq :=
  if String.eqb payReq "lnbc-lollipops" then
    Success {| lnrpc.Destination := "03peer"; lnrpc.PaymentHash := "h-lollipops";
               lnrpc.NumSatoshis := 81; lnrpc.Timestamp := 1540000400;
               lnrpc.PayReq_Description := "81 lollipops" |}
  else if String.eqb payReq "" then
    Success {| lnrpc.Destination := ""; lnrpc.PaymentHash := "";
               lnrpc.NumSatoshis := 0; lnrpc.Timestamp := 0;
               lnrpc.PayReq_Description := "" |}
  else example_DecodePayReq payReq.

(** A memo whose description is not UTF-8. *)
Definition broken_memo : data.InvoiceMemo :=
  data.set_Description (String (ascii_of_nat 255) "") example_memo.

(** An event that writes to the store. *)
Definition store_write (ev : Event) : bool :=
  match ev with
  | CallAddAccountPayment _ _ _ => true
  | _ => false
  end.

(** Two worlds with the same records and the same cursors. *)
Definition same_store (w w' : World) : Prop :=
  payments w' = payments w
  /\ lastSentPaymentTime w' = lastSentPaymentTime w
  /\ lastSettledIndex w' = lastSettledIndex w.

(** * Properties *)

(** ** Machine integers *)

Module GoIntFacts.

Import GoInt.

Lemma uint64_range z : 0 <= uint64 z < 2 ^ 64.
Proof. unfold uint64. apply Z.mod_pos_bound. lia. Qed.

Lemma uint32_range z : 0 <= uint32 z < 2 ^ 32.
Proof. unfold uint32. apply Z.mod_pos_bound. lia. Qed.

Lemma int64_range z : is_int64 (int64 z).
Proof.
  unfold is_int64, int64.
  pose proof (Z.mod_pos_bound (z + 2 ^ 63) (2 ^ 64) ltac:(lia)). lia.
Qed.

Lemma int64_id z : is_int64 z -> int64 z = z.
Proof.
  unfold is_int64, int64. intros H.
  rewrite Z.mod_small by lia. lia.
Qed.

Lemma uint64_id z : 0 <= z < 2 ^ 64 -> uint64 z = z.
Proof. unfold uint64. intros H. now rewrite Z.mod_small. Qed.

(** Reading a converted [int64] back gives the original value. *)
Lemma int64_uint64 z : is_int64 z -> int64 (uint64 z) = z.
Proof.
  unfold is_int64, int64, uint64. intros H.
  destruct (Z_lt_le_dec z 0) as [Hneg | Hpos].
  - replace (z mod 2 ^ 64) with (z + 2 ^ 64).
    + replace (z + 2 ^ 64 + 2 ^ 63) with (z + 2 ^ 63 + 1 * 2 ^ 64) by lia.
      rewrite Z.mod_add by lia. rewrite Z.mod_small by lia. lia.
    + apply Z.mod_unique with (q := -1); lia.
  - rewrite (Z.mod_small z) by lia. rewrite Z.mod_small by lia. lia.
Qed.

End GoIntFacts.


(** ** The [strings] package *)

Module stringsFacts.

Import strings.

Local Open Scope string_scope.

Lemma length_drop n s : length (drop n s) = (length s - n)%nat.
Proof.
  revert s. induction n as [| n IH]; intros [| c s]; simpl; auto.
Qed.

Lemma take_drop n s : take n s ++ drop n s = s.
Proof.
  revert s. induction n as [| n IH]; intros [| c s]; simpl; auto.
  now rewrite IH.
Qed.

Lemma drop_drop n m s : drop n (drop m s) = drop (m + n) s.
Proof.
  revert s. induction m as [| m IH]; intros s; simpl; auto.
  destruct s as [| c s]; simpl; auto. now destruct n.
Qed.

Lemma HasPrefix_spec s p :
  HasPrefix s p = true -> s = p ++ drop (length p) s.
Proof.
  revert s. induction p as [| c p IH]; intros s H; simpl in *; auto.
  destruct s as [| d s]; [discriminate |].
  apply andb_prop in H as [Hc Hp].
  apply Ascii.eqb_eq in Hc. subst d. simpl. f_equal. now apply IH.
Qed.

Lemma HasPrefix_app p r : HasPrefix (p ++ r) p = true.
Proof.
  induction p as [| c p IH]; [reflexivity |].
  cbn [append HasPrefix]. rewrite IH. now rewrite (proj2 (Ascii.eqb_eq c c) eq_refl).
Qed.

Lemma HasPrefix_length s p : HasPrefix s p = true -> (length p <= length s)%nat.
Proof.
  revert s. induction p as [| c p IH]; intros s H; simpl in *; [lia |].
  destruct s as [| d s]; [discriminate |].
  apply andb_prop in H as [_ Hp]. apply IH in Hp. simpl. lia.
Qed.

(** The index found by [Index] cuts the text around the separator. *)
Lemma Index_Some s sep i :
  Index s sep = Some i ->
  s = take i s ++ sep ++ drop (i + length sep) s
  /\ (i + length sep <= length s)%nat.
Proof.
  revert i. induction s as [| c s IH]; intros i H; simpl in H.
  - destruct (HasPrefix "" sep) eqn:Hp; [| discriminate].
    injection H as <-. split.
    + apply HasPrefix_spec in Hp. exact Hp.
    + apply HasPrefix_length in Hp. simpl in *. lia.
  - destruct (HasPrefix (String c s) sep) eqn:Hp.
    + injection H as <-. split.
      * apply HasPrefix_spec in Hp. exact Hp.
      * apply HasPrefix_length in Hp. simpl in *. lia.
    + destruct (Index s sep) as [j |] eqn:Hj; [| discriminate].
      injection H as <-. destruct (IH j eq_refl) as [Heq Hlen].
      split; simpl; [now rewrite <- Heq | lia].
Qed.

Lemma Count_loop_acc fuel s sep n :
  Count_loop fuel s sep n = (n + Count_loop fuel s sep O)%nat.
Proof.
  revert s n. induction fuel as [| fuel IH]; intros s n; simpl; [lia |].
  destruct (Index s sep) as [i |]; [| lia].
  rewrite (IH _ (S n)), (IH _ 1%nat). lia.
Qed.

(** More fuel than the length of the text is always enough. *)
Lemma Count_loop_fuel sep :
  sep <> "" ->
  forall fuel1 fuel2 s n,
    (length s < fuel1)%nat -> (length s < fuel2)%nat ->
    Count_loop fuel1 s sep n = Count_loop fuel2 s sep n.
Proof.
  intros Hsep. induction fuel1 as [| fuel1 IH]; intros fuel2 s n H1 H2; [lia |].
  destruct fuel2 as [| fuel2]; [lia |]. simpl.
  destruct (Index s sep) as [i |] eqn:Hi; auto.
  apply Index_Some in Hi as [_ Hlen].
  assert (0 < length sep)%nat by (destruct sep; [congruence | simpl; lia]).
  apply IH; rewrite length_drop; lia.
Qed.

(** The equation of [Count]. *)
Lemma Count_eq s sep :
  sep <> "" ->
  Count s sep =
    match Index s sep with
    | None => O
    | Some i => S (Count (drop (i + length sep) s) sep)
    end.
Proof.
  intros Hsep. unfold Count at 1. simpl.
  destruct (Index s sep) as [i |] eqn:Hi; auto.
  rewrite Count_loop_acc. simpl. f_equal.
  apply Index_Some in Hi as [_ Hlen].
  assert (0 < length sep)%nat by (destruct sep; [congruence | simpl; lia]).
  apply Count_loop_fuel; auto; rewrite length_drop; lia.
Qed.

Lemma genSplit_loop_length sep :
  sep <> "" ->
  forall n s, Count s sep = n ->
    List.length (genSplit_loop n s sep) = S n.
Proof.
  intros Hsep. induction n as [| n IH]; intros s Hc; simpl; auto.
  rewrite Count_eq in Hc by assumption.
  destruct (Index s sep) as [i |]; [| discriminate].
  injection Hc as Hc. simpl. f_equal. now apply IH.
Qed.

(** [Split] returns one field more than [Count] counts separators. *)
Lemma Split_length s sep :
  sep <> "" -> List.length (Split s sep) = S (Count s sep).
Proof. intros Hsep. unfold Split. now apply genSplit_loop_length. Qed.

(** A text with exactly two separators splits into exactly three
    fields, which put back together with the separator give the text. *)
Lemma Split_two s sep :
  sep <> "" -> Count s sep = 2%nat ->
  exists a b c,
    Split s sep = [a; b; c] /\ s = a ++ sep ++ b ++ sep ++ c
    /\ Index c sep = None.
Proof.
  intros Hsep Hc. unfold Split. rewrite Hc.
  rewrite Count_eq in Hc by assumption. simpl.
  destruct (Index s sep) as [i |] eqn:Hi; [| discriminate].
  injection Hc as Hc. rewrite Count_eq in Hc by assumption.
  set (s1 := drop (i + length sep) s) in *.
  destruct (Index s1 sep) as [j |] eqn:Hj; [| discriminate].
  injection Hc as Hc. rewrite Count_eq in Hc by assumption.
  set (s2 := drop (j + length sep) s1) in *.
  destruct (Index s2 sep) as [k |] eqn:Hk; [discriminate |].
  exists (take i s), (take j s1), s2. repeat split; auto.
  apply Index_Some in Hi as [Hi _]. apply Index_Some in Hj as [Hj _].
  fold s1 in Hi. fold s2 in Hj. rewrite <- Hj. exact Hi.
Qed.

End stringsFacts.


(** ** The structured encoding of a memo *)

Module protoFacts.

Import data proto.

(** *** Bytes and varints *)

Lemma val_range b : 0 <= val b < 256.
Proof.
  unfold val. pose proof (Byte.to_N_bounded b). lia.
Qed.

Lemma val_uint8 z : val (uint8 z) = z mod 256.
Proof.
  unfold val, uint8.
  pose proof (Z.mod_pos_bound z 256 ltac:(lia)) as Hr.
  destruct (Byte.of_N (Z.to_N (z mod 256))) as [b |] eqn:Hb.
  - apply Byte.to_of_N in Hb. rewrite Hb. lia.
  - apply Byte.of_N_None_iff in Hb. lia.
Qed.

Lemma land_127 b : Z.land (val b) 127 = val b mod 128.
Proof. destruct b; reflexivity. Qed.

Lemma land_128 b : (Z.land (val b) 128 =? 0) = (val b <? 128).
Proof. destruct b; reflexivity. Qed.

Lemma lor_shiftl_add a r s :
  0 <= s -> 0 <= a < 2 ^ s -> 0 <= r ->
  Z.lor a (Z.shiftl r s) = a + r * 2 ^ s.
Proof.
  intros Hs Ha Hr.
  assert (Hland : Z.land a (Z.shiftl r s) = 0).
  { apply Z.bits_inj'. intros i Hi. rewrite Z.land_spec, Z.bits_0.
    destruct (Z_lt_le_dec i s) as [Hlt | Hge].
    - rewrite Z.shiftl_spec_low by assumption. apply andb_false_r.
    - destruct (Z.eq_dec a 0) as [-> | Hnz]; [now rewrite Z.bits_0 |].
      rewrite (Z.bits_above_log2 a i); [reflexivity | lia |].
      apply Z.log2_lt_pow2; [lia |].
      apply Z.lt_le_trans with (2 ^ s); [lia |].
      apply Z.pow_le_mono_r; lia. }
  rewrite <- Z.lxor_lor by assumption.
  rewrite <- Z.add_nocarry_lxor by assumption.
  now rewrite Z.shiftl_mul_pow2.
Qed.

Lemma lor_mul_add a r s :
  0 <= s -> 0 <= a < 2 ^ s -> 0 <= r ->
  Z.lor a (r * 2 ^ s) = a + r * 2 ^ s.
Proof.
  intros Hs Ha Hr. rewrite <- lor_shiftl_add by assumption.
  now rewrite Z.shiftl_mul_pow2.
Qed.

Lemma more_byte x : Z.lor 128 (Z.land x 127) = x mod 128 + 128.
Proof.
  change 127 with (Z.ones 7). rewrite Z.land_ones by lia.
  pose proof (Z.mod_pos_bound x (2 ^ 7) ltac:(lia)) as Hm.
  rewrite Z.lor_comm. change 128 with (1 * 2 ^ 7).
  now rewrite lor_mul_add by lia.
Qed.

Lemma EncodeVarint_loop_spec fuel : forall dfuel x shift acc rest,
  (fuel < dfuel)%nat -> 0 <= shift -> 0 <= acc < 2 ^ shift -> 0 <= x ->
  x * 2 ^ shift < 2 ^ 64 -> x < 2 ^ (7 * (Z.of_nat fuel + 1)) ->
  DecodeVarint_loop dfuel shift acc (EncodeVarint_loop fuel x ++ rest)
  = Some (acc + x * 2 ^ shift, rest).
Proof.
  assert (Hlast : forall dfuel x shift acc rest,
    (0 < dfuel)%nat -> 0 <= shift -> 0 <= acc < 2 ^ shift -> 0 <= x < 128 ->
    x * 2 ^ shift < 2 ^ 64 ->
    DecodeVarint_loop dfuel shift acc (uint8 x :: rest)
    = Some (acc + x * 2 ^ shift, rest)).
  { intros dfuel x shift acc rest Hd Hs Hacc Hx Hlt.
    destruct dfuel as [| dfuel]; [lia |]. simpl.
    rewrite land_128, land_127, val_uint8.
    rewrite (Z.mod_small x 256) by lia. rewrite (Z.mod_small x 128) by lia.
    replace (x <? 128) with true by (symmetry; apply Z.ltb_lt; lia).
    rewrite Z.shiftl_mul_pow2 by assumption.
    rewrite GoIntFacts.uint64_id by (split; [apply Z.mul_nonneg_nonneg; lia | lia]).
    now rewrite lor_mul_add by lia. }
  induction fuel as [| fuel IH]; intros dfuel x shift acc rest Hd Hs Hacc Hx Hlt Hfuel.
  - change (7 * (Z.of_nat 0 + 1)) with 7 in Hfuel. change (2 ^ 7) with 128 in Hfuel.
    simpl. apply Hlast; auto; lia.
  - cbn [EncodeVarint_loop]. destruct (127 <? x) eqn:Hbig.
    + apply Z.ltb_lt in Hbig.
      destruct dfuel as [| dfuel]; [lia |]. cbn [app DecodeVarint_loop].
      rewrite land_128, land_127, val_uint8, more_byte.
      pose proof (Z.mod_pos_bound x 128 ltac:(lia)) as Hm.
      rewrite (Z.mod_small (x mod 128 + 128) 256) by lia.
      replace (x mod 128 + 128 <? 128) with false by (symmetry; apply Z.ltb_ge; lia).
      replace ((x mod 128 + 128) mod 128) with (x mod 128)
        by (replace (x mod 128 + 128) with (x mod 128 + 1 * 128) by lia;
            rewrite Z.mod_add by lia; now rewrite Z.mod_mod by lia).
      assert (Hpow : 0 < 2 ^ shift) by (apply Z.pow_pos_nonneg; lia).
      assert (Hdm := Z.div_mod x 128 ltac:(lia)).
      assert (Hdiv : 0 <= x / 128) by (apply Z.div_pos; lia).
      assert (Hle : x mod 128 * 2 ^ shift <= x * 2 ^ shift) by nia.
      rewrite Z.shiftl_mul_pow2 by assumption.
      rewrite GoIntFacts.uint64_id by (split; [apply Z.mul_nonneg_nonneg; lia | lia]).
      rewrite lor_mul_add by lia.
      rewrite Z.shiftr_div_pow2 by lia. change (2 ^ 7) with 128.
      assert (Hsplit : 2 ^ (shift + 7) = 2 ^ shift * 128)
        by (rewrite Z.pow_add_r by lia; reflexivity).
      rewrite IH; try lia.
      * f_equal. f_equal. rewrite Hsplit. nia.
      * rewrite Hsplit. nia.
      * replace (7 * (Z.of_nat (S fuel) + 1)) with (7 * (Z.of_nat fuel + 1) + 7) in Hfuel by lia.
        rewrite Z.pow_add_r in Hfuel by lia. change (2 ^ 7) with 128 in Hfuel.
        apply Z.div_lt_upper_bound; lia.
    + apply Z.ltb_ge in Hbig. apply Hlast; auto; lia.
Qed.

Lemma DecodeVarint_EncodeVarint x rest :
  0 <= x < 2 ^ 64 -> DecodeVarint (EncodeVarint x ++ rest) = Some (x, rest).
Proof.
  intros Hx. unfold DecodeVarint, EncodeVarint.
  rewrite EncodeVarint_loop_spec by lia.
  f_equal. f_equal. lia.
Qed.

(** *** Decoding an encoded memo *)

Lemma length_list_byte_of_string s :
  List.length (list_byte_of_string s) = String.length s.
Proof. induction s as [| c s IH]; simpl; auto. Qed.

Section Steps.

Variables (field wire : Z) (t : byte).
Hypothesis Htag : wiretag field wire = [t].
Hypothesis Hdec : forall rest, DecodeVarint (t :: rest) = Some (Z.lor (Z.shiftl field 3) wire, rest).

Lemma step_string (set : string -> InvoiceMemo -> InvoiceMemo) v rest F m e :
  wire = WireBytes ->
  (forall b m, unmarshal_field (Z.shiftr (Z.lor (Z.shiftl field 3) wire) 3)
                 (Z.land (Z.lor (Z.shiftl field 3) wire) 7) b m
               = Some (unmarshalUTF8StringValue b WireBytes (fun v => set v m))) ->
  valid_string v ->
  (List.length (fst (appendUTF8StringValueNoZero field v) ++ rest) <= F)%nat ->
  v <> "" ->
  unmarshal_loop F (fst (appendUTF8StringValueNoZero field v) ++ rest) m e
  = unmarshal_loop (F - 1) rest (set v m) e
  /\ snd (appendUTF8StringValueNoZero field v) = None.
Proof.
  intros Hw Hfield [Hutf Hlen] HF Hne. unfold appendUTF8StringValueNoZero in *.
  destruct (String.eqb_spec v ""); [contradiction |].
  cbn [fst snd] in *. rewrite Hutf. split; [| reflexivity].
  subst wire. rewrite Htag in *. cbn [app] in *.
  destruct F as [| F]; [simpl in HF; lia |].
  cbn [unmarshal_loop]. rewrite Hdec, Hfield.
  replace (S F - 1)%nat with F by lia.
  unfold unmarshalUTF8StringValue. cbn [Z.eqb WireBytes negb].
  rewrite <- app_assoc.
  rewrite DecodeVarint_EncodeVarint by lia.
  rewrite length_app, length_list_byte_of_string.
  replace (Z.of_nat (String.length v + List.length rest) <? Z.of_nat (String.length v))
    with false by (symmetry; apply Z.ltb_ge; lia).
  rewrite Nat2Z.id.
  rewrite <- (length_list_byte_of_string v).
  rewrite firstn_app, Nat.sub_diag, firstn_all, firstn_O, app_nil_r.
  rewrite skipn_app, Nat.sub_diag, skipn_all, skipn_O.
  unfold utf8_ValidString in Hutf. rewrite Hutf.
  now rewrite string_of_list_byte_of_string.
Qed.

Lemma step_int64 (set : Z -> InvoiceMemo -> InvoiceMemo) v rest F m e :
  wire = WireVarint ->
  (forall b m, unmarshal_field (Z.shiftr (Z.lor (Z.shiftl field 3) wire) 3)
                 (Z.land (Z.lor (Z.shiftl field 3) wire) 7) b m
               = Some (unmarshalInt64Value b WireVarint (fun v => set v m))) ->
  GoInt.is_int64 v ->
  (List.length (appendVarint64ValueNoZero field v ++ rest) <= F)%nat ->
  v <> 0 ->
  unmarshal_loop F (appendVarint64ValueNoZero field v ++ rest) m e
  = unmarshal_loop (F - 1) rest (set v m) e.
Proof.
  intros Hw Hfield Hv HF Hne. unfold appendVarint64ValueNoZero in *.
  destruct (Z.eqb_spec v 0); [contradiction |].
  subst wire. rewrite Htag in *. cbn [app] in *.
  destruct F as [| F]; [simpl in HF; lia |].
  cbn [unmarshal_loop]. rewrite Hdec, Hfield.
  replace (S F - 1)%nat with F by lia.
  unfold unmarshalInt64Value. cbn [Z.eqb WireVarint negb].
  rewrite DecodeVarint_EncodeVarint by apply GoIntFacts.uint64_range.
  now rewrite GoIntFacts.int64_uint64.
Qed.

Lemma step_bool (set : bool -> InvoiceMemo -> InvoiceMemo) rest F m e :
  wire = WireVarint ->
  (forall b m, unmarshal_field (Z.shiftr (Z.lor (Z.shiftl field 3) wire) 3)
                 (Z.land (Z.lor (Z.shiftl field 3) wire) 7) b m
               = Some (unmarshalBoolValue b WireVarint (fun v => set v m))) ->
  (List.length (appendBoolValueNoZero field true ++ rest) <= F)%nat ->
  unmarshal_loop F (appendBoolValueNoZero field true ++ rest) m e
  = unmarshal_loop (F - 1) rest (set true m) e.
Proof.
  intros Hw Hfield HF. unfold appendBoolValueNoZero in *.
  subst wire. rewrite Htag in *. cbn [app] in *.
  destruct F as [| F]; [simpl in HF; lia |].
  cbn [unmarshal_loop]. rewrite Hdec, Hfield.
  replace (S F - 1)%nat with F by lia.
  unfold unmarshalBoolValue. cbn [Z.eqb WireVarint negb].
  reflexivity.
Qed.

End Steps.

Lemma unmarshal_loop_nil F m e : unmarshal_loop F [] m e = (m, e).
Proof. destruct F; reflexivity. Qed.

Section AnyStep.

Variables (field wire : Z) (t : byte).
Hypothesis Htag : wiretag field wire = [t].
Hypothesis Hdec : forall rest, DecodeVarint (t :: rest) = Some (Z.lor (Z.shiftl field 3) wire, rest).

Lemma any_string (set : string -> InvoiceMemo -> InvoiceMemo) v rest F m e :
  wire = WireBytes ->
  (forall b m, unmarshal_field (Z.shiftr (Z.lor (Z.shiftl field 3) wire) 3)
                 (Z.land (Z.lor (Z.shiftl field 3) wire) 7) b m
               = Some (unmarshalUTF8StringValue b WireBytes (fun v => set v m))) ->
  valid_string v ->
  set "" m = m ->
  (List.length (fst (appendUTF8StringValueNoZero field v) ++ rest) <= F)%nat ->
  snd (appendUTF8StringValueNoZero field v) = None
  /\ exists F', (List.length rest <= F')%nat
     /\ unmarshal_loop F (fst (appendUTF8StringValueNoZero field v) ++ rest) m e
        = unmarshal_loop F' rest (set v m) e.
Proof.
  intros Hw Hfield Hv Hzero HF.
  destruct (string_dec v "") as [-> | Hne].
  - split; [reflexivity |]. exists F. rewrite Hzero. now split.
  - destruct (step_string field wire t Htag Hdec set v rest F m e) as [Heq Herr]; auto.
    split; [exact Herr |]. exists (F - 1)%nat. split; [| exact Heq].
    unfold appendUTF8StringValueNoZero in HF.
    destruct (String.eqb_spec v ""); [contradiction |].
    cbn [fst] in HF. subst wire. rewrite Htag in HF. rewrite !length_app in HF. simpl in HF. lia.
Qed.

Lemma any_int64 (set : Z -> InvoiceMemo -> InvoiceMemo) v rest F m e :
  wire = WireVarint ->
  (forall b m, unmarshal_field (Z.shiftr (Z.lor (Z.shiftl field 3) wire) 3)
                 (Z.land (Z.lor (Z.shiftl field 3) wire) 7) b m
               = Some (unmarshalInt64Value b WireVarint (fun v => set v m))) ->
  GoInt.is_int64 v ->
  set 0 m = m ->
  (List.length (appendVarint64ValueNoZero field v ++ rest) <= F)%nat ->
  exists F', (List.length rest <= F')%nat
     /\ unmarshal_loop F (appendVarint64ValueNoZero field v ++ rest) m e
        = unmarshal_loop F' rest (set v m) e.
Proof.
  intros Hw Hfield Hv Hzero HF.
  destruct (Z.eq_dec v 0) as [-> | Hne].
  - exists F. rewrite Hzero. now split.
  - exists (F - 1)%nat. split.
    + unfold appendVarint64ValueNoZero in HF.
      destruct (Z.eqb_spec v 0); [contradiction |].
      subst wire. rewrite Htag in HF. rewrite !length_app in HF. simpl in HF. lia.
    + now apply (step_int64 field wire t Htag Hdec).
Qed.

Lemma any_bool (set : bool -> InvoiceMemo -> InvoiceMemo) v rest F m e :
  wire = WireVarint ->
  (forall b m, unmarshal_field (Z.shiftr (Z.lor (Z.shiftl field 3) wire) 3)
                 (Z.land (Z.lor (Z.shiftl field 3) wire) 7) b m
               = Some (unmarshalBoolValue b WireVarint (fun v => set v m))) ->
  set false m = m ->
  (List.length (appendBoolValueNoZero field v ++ rest) <= F)%nat ->
  exists F', (List.length rest <= F')%nat
     /\ unmarshal_loop F (appendBoolValueNoZero field v ++ rest) m e
        = unmarshal_loop F' rest (set v m) e.
Proof.
  intros Hw Hfield Hzero HF.
  destruct v.
  - exists (F - 1)%nat. split.
    + unfold appendBoolValueNoZero in HF.
      subst wire. rewrite Htag in HF. rewrite !length_app in HF. simpl in HF. lia.
    + now apply (step_bool field wire t Htag Hdec).
  - exists F. rewrite Hzero. now split.
Qed.

End AnyStep.

Lemma Marshal_fst m :
  fst (Marshal m) =
    fst (appendUTF8StringValueNoZero 1 (Description m))
    ++ appendVarint64ValueNoZero 2 (Amount m)
    ++ fst (appendUTF8StringValueNoZero 3 (PayeeName m))
    ++ fst (appendUTF8StringValueNoZero 4 (PayeeImageURL m))
    ++ fst (appendUTF8StringValueNoZero 5 (PayerName m))
    ++ fst (appendUTF8StringValueNoZero 6 (PayerImageURL m))
    ++ appendBoolValueNoZero 7 (TransferRequest m)
    ++ appendVarint64ValueNoZero 8 (Expiry m).
Proof.
  unfold Marshal.
  destruct (appendUTF8StringValueNoZero 1 (Description m)),
    (appendUTF8StringValueNoZero 3 (PayeeName m)),
    (appendUTF8StringValueNoZero 4 (PayeeImageURL m)),
    (appendUTF8StringValueNoZero 5 (PayerName m)),
    (appendUTF8StringValueNoZero 6 (PayerImageURL m)). reflexivity.
Qed.

Lemma Marshal_snd m :
  snd (Marshal m) =
    first_error (snd (appendUTF8StringValueNoZero 1 (Description m)))
      (first_error (snd (appendUTF8StringValueNoZero 3 (PayeeName m)))
         (first_error (snd (appendUTF8StringValueNoZero 4 (PayeeImageURL m)))
            (first_error (snd (appendUTF8StringValueNoZero 5 (PayerName m)))
               (snd (appendUTF8StringValueNoZero 6 (PayerImageURL m)))))).
Proof.
  unfold Marshal.
  destruct (appendUTF8StringValueNoZero 1 (Description m)),
    (appendUTF8StringValueNoZero 3 (PayeeName m)),
    (appendUTF8StringValueNoZero 4 (PayeeImageURL m)),
    (appendUTF8StringValueNoZero 5 (PayerName m)),
    (appendUTF8StringValueNoZero 6 (PayerImageURL m)). reflexivity.
Qed.

(** Decoding the encoding of a valid memo gives the memo back, and
    neither side reports an error. *)
Theorem Unmarshal_Marshal m :
  valid_memo m ->
  snd (Marshal m) = None /\ Unmarshal (fst (Marshal m)) = (m, None).
Proof.
  intros (Hd & Ha & Hpn & Hpi & Hrn & Hri & He).
  unfold Unmarshal. rewrite Marshal_snd, Marshal_fst.
  set (F := List.length _). assert (HF : (List.length
    (fst (appendUTF8StringValueNoZero 1 (Description m))
    ++ appendVarint64ValueNoZero 2 (Amount m)
    ++ fst (appendUTF8StringValueNoZero 3 (PayeeName m))
    ++ fst (appendUTF8StringValueNoZero 4 (PayeeImageURL m))
    ++ fst (appendUTF8StringValueNoZero 5 (PayerName m))
    ++ fst (appendUTF8StringValueNoZero 6 (PayerImageURL m))
    ++ appendBoolValueNoZero 7 (TransferRequest m)
    ++ appendVarint64ValueNoZero 8 (Expiry m)) <= F)%nat) by (subst F; lia).
  clearbody F.
  destruct (any_string 1 WireBytes x0a eq_refl (fun _ => eq_refl) set_Description
              (Description m) _ F InvoiceMemo_zero None eq_refl (fun _ _ => eq_refl) Hd
              eq_refl HF) as (E1 & F1 & HF1 & ->).
  set (m1 := set_Description (Description m) InvoiceMemo_zero).
  destruct (any_int64 2 WireVarint x10 eq_refl (fun _ => eq_refl) set_Amount
              (Amount m) _ F1 m1 None eq_refl (fun _ _ => eq_refl) Ha
              eq_refl HF1) as (F2 & HF2 & ->).
  set (m2 := set_Amount (Amount m) m1).
  destruct (any_string 3 WireBytes x1a eq_refl (fun _ => eq_refl) set_PayeeName
              (PayeeName m) _ F2 m2 None eq_refl (fun _ _ => eq_refl) Hpn
              eq_refl HF2) as (E3 & F3 & HF3 & ->).
  set (m3 := set_PayeeName (PayeeName m) m2).
  destruct (any_string 4 WireBytes x22 eq_refl (fun _ => eq_refl) set_PayeeImageURL
              (PayeeImageURL m) _ F3 m3 None eq_refl (fun _ _ => eq_refl) Hpi
              eq_refl HF3) as (E4 & F4 & HF4 & ->).
  set (m4 := set_PayeeImageURL (PayeeImageURL m) m3).
  destruct (any_string 5 WireBytes x2a eq_refl (fun _ => eq_refl) set_PayerName
              (PayerName m) _ F4 m4 None eq_refl (fun _ _ => eq_refl) Hrn
              eq_refl HF4) as (E5 & F5 & HF5 & ->).
  set (m5 := set_PayerName (PayerName m) m4).
  destruct (any_string 6 WireBytes x32 eq_refl (fun _ => eq_refl) set_PayerImageURL
              (PayerImageURL m) _ F5 m5 None eq_refl (fun _ _ => eq_refl) Hri
              eq_refl HF5) as (E6 & F6 & HF6 & ->).
  set (m6 := set_PayerImageURL (PayerImageURL m) m5).
  destruct (any_bool 7 WireVarint x38 eq_refl (fun _ => eq_refl) set_TransferRequest
              (TransferRequest m) _ F6 m6 None eq_refl (fun _ _ => eq_refl)
              eq_refl HF6) as (F7 & HF7 & ->).
  set (m7 := set_TransferRequest (TransferRequest m) m6).
  rewrite <- (app_nil_r (appendVarint64ValueNoZero 8 (Expiry m))) in HF7 |- *.
  destruct (any_int64 8 WireVarint x40 eq_refl (fun _ => eq_refl) set_Expiry
              (Expiry m) _ F7 m7 None eq_refl (fun _ _ => eq_refl) He
              eq_refl HF7) as (F8 & HF8 & ->).
  rewrite E1, E3, E4, E5, E6, unmarshal_loop_nil. split; [reflexivity |].
  destruct m; reflexivity.
Qed.

(** *** The fuel of the loops is enough *)

Lemma DecodeVarint_loop_shorter fuel : forall shift x b y b',
  DecodeVarint_loop fuel shift x b = Some (y, b') ->
  (List.length b' < List.length b)%nat.
Proof.
  induction fuel as [| fuel IH]; intros shift x b y b' H; simpl in H; [discriminate |].
  destruct b as [| c b]; [discriminate |].
  destruct (Z.land (val c) 128 =? 0).
  - injection H as _ <-. simpl. lia.
  - apply IH in H. simpl. lia.
Qed.

Lemma DecodeVarint_shorter b y b' :
  DecodeVarint b = Some (y, b') -> (List.length b' < List.length b)%nat.
Proof. apply DecodeVarint_loop_shorter. Qed.

Ltac shorter :=
  repeat match goal with
    | H : DecodeVarint _ = Some _ |- _ => apply DecodeVarint_shorter in H
    | H : (_ <? _)%nat = false |- _ => apply Nat.ltb_ge in H
    | H : (_ <? _)%Z = false |- _ => apply Z.ltb_ge in H
    end;
  repeat match goal with
    | |- context [List.length (skipn ?n ?l)] => rewrite (length_skipn n l)
    | H : context [List.length (skipn ?n ?l)] |- _ => rewrite (length_skipn n l) in H
    end;
  cbn [List.length] in *; try lia.

Lemma findEndGroup_fuel : forall fuel1 fuel2 depth b,
  (List.length b < fuel1)%nat -> (List.length b < fuel2)%nat ->
  findEndGroup fuel1 depth b = findEndGroup fuel2 depth b.
Proof.
  induction fuel1 as [| fuel1 IH]; intros fuel2 depth b H1 H2; [lia |].
  destruct fuel2 as [| fuel2]; [lia |]. cbn [findEndGroup].
  destruct (DecodeVarint b) as [[x b1] |] eqn:Hx; [| reflexivity].
  destruct (Z.land x 7 =? WireVarint).
  { destruct (DecodeVarint b1) as [[y b2] |] eqn:Hy; [| reflexivity].
    apply IH; shorter. }
  destruct (Z.land x 7 =? WireFixed32).
  { destruct (List.length b1 <? 4)%nat eqn:Hl; [reflexivity |]. apply IH; shorter.
    }
  destruct (Z.land x 7 =? WireFixed64).
  { destruct (List.length b1 <? 8)%nat eqn:Hl; [reflexivity |]. apply IH; shorter. }
  destruct (Z.land x 7 =? WireBytes).
  { destruct (DecodeVarint b1) as [[y b2] |] eqn:Hy; [| reflexivity].
    destruct (Z.of_nat (List.length b2) <? y) eqn:Hl; [reflexivity |]. apply IH; shorter. }
  destruct (Z.land x 7 =? WireStartGroup).
  { apply IH; shorter. }
  destruct (Z.land x 7 =? WireEndGroup); [| reflexivity].
  destruct depth as [| [| d]]; try reflexivity. apply IH; shorter.
Qed.

Lemma findEndGroup_shorter : forall fuel depth b b',
  findEndGroup fuel depth b = Some b' -> (List.length b' < List.length b)%nat.
Proof.
  induction fuel as [| fuel IH]; intros depth b b' H; [discriminate |].
  cbn [findEndGroup] in H.
  destruct (DecodeVarint b) as [[x b1] |] eqn:Hx; [| discriminate].
  destruct (Z.land x 7 =? WireVarint).
  { destruct (DecodeVarint b1) as [[y b2] |] eqn:Hy; [| discriminate].
    apply IH in H. shorter. }
  destruct (Z.land x 7 =? WireFixed32).
  { destruct (List.length b1 <? 4)%nat eqn:Hl; [discriminate |]. apply IH in H. shorter. }
  destruct (Z.land x 7 =? WireFixed64).
  { destruct (List.length b1 <? 8)%nat eqn:Hl; [discriminate |]. apply IH in H. shorter. }
  destruct (Z.land x 7 =? WireBytes).
  { destruct (DecodeVarint b1) as [[y b2] |] eqn:Hy; [| discriminate].
    destruct (Z.of_nat (List.length b2) <? y) eqn:Hl; [discriminate |].
    apply IH in H. shorter. }
  destruct (Z.land x 7 =? WireStartGroup).
  { apply IH in H. shorter. }
  destruct (Z.land x 7 =? WireEndGroup); [| discriminate].
  destruct depth as [| [| d]]; try (injection H as <-; shorter).
  apply IH in H. shorter.
Qed.

Lemma inl_inj {A B : Type} (a b : A) : @inl A B a = inl b -> a = b.
Proof. congruence. Qed.

Lemma skipField_shorter b wire b' :
  skipField b wire = inl b' -> (List.length b' <= List.length b)%nat.
Proof.
  unfold skipField. intros H.
  destruct (wire =? WireVarint).
  { destruct (DecodeVarint b) as [[y b2] |] eqn:Hy; [| discriminate].
    apply inl_inj in H; subst b'. shorter. }
  destruct (wire =? WireFixed32).
  { destruct (List.length b <? 4)%nat; [discriminate |]. apply inl_inj in H; subst b'. shorter. }
  destruct (wire =? WireFixed64).
  { destruct (List.length b <? 8)%nat; [discriminate |]. apply inl_inj in H; subst b'. shorter. }
  destruct (wire =? WireBytes).
  { destruct (DecodeVarint b) as [[y b2] |] eqn:Hy; [| discriminate].
    destruct (Z.of_nat (List.length b2) <? y); [discriminate |].
    apply inl_inj in H; subst b'. shorter. }
  destruct (wire =? WireStartGroup); [| discriminate].
  destruct (findEndGroup _ 1 b) as [b2 |] eqn:Hg; [| discriminate].
  apply inl_inj in H; subst b'. apply findEndGroup_shorter in Hg. lia.
Qed.

Lemma unmarshal_field_shorter tag wire b m b' m' :
  unmarshal_field tag wire b m = Some (FieldSet b' m')
  \/ unmarshal_field tag wire b m = Some (FieldInvalidUTF8 b' m') ->
  (List.length b' <= List.length b)%nat.
Proof.
  unfold unmarshal_field, unmarshalUTF8StringValue, unmarshalInt64Value,
    unmarshalBoolValue.
  intros H.
  repeat match type of H with
    | context [if ?c then _ else _] => destruct c
    | context [match DecodeVarint b with _ => _ end] =>
        let Hy := fresh "Hy" in
        destruct (DecodeVarint b) as [[? ?] |] eqn:Hy
    end;
  destruct H as [H | H]; try discriminate;
  injection H as <- _; shorter.
Qed.

Lemma unmarshal_loop_fuel : forall fuel1 fuel2 b m e,
  (List.length b <= fuel1)%nat -> (List.length b <= fuel2)%nat ->
  unmarshal_loop fuel1 b m e = unmarshal_loop fuel2 b m e.
Proof.
  induction fuel1 as [| fuel1 IH]; intros fuel2 b m e H1 H2.
  - destruct b; [| simpl in H1; lia]. now rewrite !unmarshal_loop_nil.
  - destruct fuel2 as [| fuel2].
    + destruct b; [| simpl in H2; lia]. now rewrite !unmarshal_loop_nil.
    + cbn [unmarshal_loop]. destruct b as [| c b]; [reflexivity |].
      destruct (DecodeVarint (c :: b)) as [[x b1] |] eqn:Hx; [| reflexivity].
      apply DecodeVarint_shorter in Hx.
      assert (Hskip :
        match skipField b1 (Z.land x 7) with
        | inl b2 => unmarshal_loop fuel1 b2 m e
        | inr e0 => (m, Some e0)
        end =
        match skipField b1 (Z.land x 7) with
        | inl b2 => unmarshal_loop fuel2 b2 m e
        | inr e0 => (m, Some e0)
        end).
      { destruct (skipField b1 (Z.land x 7)) as [b2 |] eqn:Hs; [| reflexivity].
        apply skipField_shorter in Hs. apply IH; simpl in *; lia. }
      destruct (unmarshal_field (Z.shiftr x 3) (Z.land x 7) b1 m) as [[b2 m' | b2 m' | | e'] |] eqn:Hf;
        auto.
      * assert (List.length b2 <= List.length b1)%nat
          by (eapply unmarshal_field_shorter; left; exact Hf).
        apply IH; simpl in *; lia.
      * assert (List.length b2 <= List.length b1)%nat
          by (eapply unmarshal_field_shorter; right; exact Hf).
        apply IH; simpl in *; lia.
Qed.

(** [Unmarshal] never stops for lack of fuel: more fuel gives the same
    result. *)
Lemma Unmarshal_fuel fuel buf :
  (List.length buf <= fuel)%nat ->
  unmarshal_loop fuel buf InvoiceMemo_zero None = Unmarshal buf.
Proof. intros H. unfold Unmarshal. now apply unmarshal_loop_fuel. Qed.

End protoFacts.


(** ** [sort.Slice] *)

Module sortFacts.

Import sort.

Section SliceFacts.

Context {A : Type} (less : A -> A -> bool).

Local Abbreviation sift := (sort.sift less).
Local Abbreviation Slice := (sort.Slice less).
Local Abbreviation down := (sort.down less).

Lemma sift_perm x l : Permutation (sift x l) (x :: l).
Proof.
  induction l as [| y l IH]; simpl; auto.
  destruct (less x y); auto.
  rewrite IH. apply perm_swap.
Qed.

Lemma Slice_perm l : Permutation (Slice l) l.
Proof.
  unfold Slice. rewrite <- Permutation_rev.
  assert (H : forall acc, Permutation (fold_left (fun s x => sift x s) l acc) (l ++ acc)).
  { induction l as [| x l IH]; intros acc; simpl; auto.
    rewrite IH. rewrite sift_perm. apply Permutation_sym, Permutation_middle. }
  rewrite H. now rewrite app_nil_r.
Qed.

Hypothesis less_asym : forall x y, less x y = true -> less y x = false.

Lemma sift_down x l : down l -> down (sift x l).
Proof.
  unfold down. induction l as [| y l IH]; intros Hl; simpl.
  - repeat constructor.
  - destruct (less x y) eqn:Hxy.
    + inversion Hl as [| ? ? Hs Hh]; subst. constructor; [now apply IH |].
      destruct l as [| z l]; simpl.
      * constructor. now apply less_asym.
      * destruct (less x z); constructor.
        -- now inversion Hh.
        -- now apply less_asym.
    + constructor; [assumption |]. now constructor.
Qed.

Lemma fold_sift_down l : forall acc,
  down acc -> down (fold_left (fun s x => sift x s) l acc).
Proof.
  induction l as [| x l IH]; intros acc Hacc; simpl; auto.
  apply IH. now apply sift_down.
Qed.

Lemma Sorted_snoc (R : A -> A -> Prop) r x :
  Sorted R r -> (forall r0 y, r = r0 ++ [y] -> R y x) -> Sorted R (r ++ [x]).
Proof.
  induction r as [| a r IH]; intros Hr Hlast; simpl.
  - repeat constructor.
  - inversion Hr as [| ? ? Hs Hh]; subst. constructor.
    + apply IH; [assumption |]. intros r0 y E. apply (Hlast (a :: r0) y).
      simpl. now f_equal.
    + destruct r as [| b r]; simpl.
      * constructor. now apply (Hlast [] a).
      * constructor. now inversion Hh.
Qed.

Lemma Sorted_rev (R : A -> A -> Prop) l :
  Sorted R l -> Sorted (fun a b => R b a) (rev l).
Proof.
  induction l as [| x l IH]; intros H; simpl; [constructor |].
  inversion H as [| ? ? Hs Hh]; subst.
  apply Sorted_snoc; [now apply IH |].
  intros r0 y E. destruct l as [| z l]; simpl in E.
  - now destruct r0.
  - apply app_inj_tail in E as [_ <-]. now inversion Hh.
Qed.

(** The result of [Slice] is in order: no element is less than the one
    before it. *)
Lemma Slice_sorted l : Sorted (fun a b => less b a = false) (Slice l).
Proof.
  unfold Slice. apply (Sorted_rev (fun u v => less u v = false)).
  apply fold_sift_down. constructor.
Qed.

End SliceFacts.

End sortFacts.

(** ** The memo codec *)

Lemma out_eta {A : Type} (o : Out A) :
  {| res := res o; world := world o; events := events o |} = o.
Proof. now destruct o. Qed.

Lemma separator_not_empty : separator <> "".
Proof. discriminate. Qed.

(** The fallback branch returns a memo, changes nothing and calls
    nobody. *)
Lemma decodeStandardInvoice_out decodedPayReq invoiceMemo :
  let description := lnrpc.PayReq_Description decodedPayReq in
  exists memo,
    (forall w, decodeStandardInvoice decodedPayReq invoiceMemo w
               = {| res := Ok memo; world := w; events := [] |})
    /\ data.Amount memo = lnrpc.NumSatoshis decodedPayReq
    /\ (strings.Count description separator = 2%nat ->
        exists d p u,
          strings.Split description separator = [d; p; u]
          /\ description = (d ++ separator ++ p ++ separator ++ u)%string
          /\ data.Description memo = d
          /\ data.PayeeName memo = p
          /\ data.PayeeImageURL memo = u)
    /\ (strings.Count description separator <> 2%nat ->
        data.Description memo = description).
Proof.
  intros description. unfold decodeStandardInvoice. fold description.
  destruct (Nat.eqb_spec (strings.Count description separator) 2) as [Hc | Hc].
  - destruct (stringsFacts.Split_two description separator separator_not_empty Hc)
      as (d & p & u & Hs & Hd & _).
    rewrite Hs. eexists. split; [intros w; reflexivity |]. cbn.
    split; [reflexivity |].
    split; [| contradiction]. intros _. exists d, p, u. auto.
  - eexists. split; [intros w; reflexivity |]. cbn. split; [reflexivity |].
    split; [contradiction | reflexivity].
Qed.

(** What [DecodePaymentRequest] does, case by case. *)
Lemma DecodePaymentRequest_failure env paymentRequest e w :
  DecodePayReq env paymentRequest = Failure e ->
  DecodePaymentRequest env paymentRequest w
  = {| res := Err e; world := w; events := [CallDecodePayReq paymentRequest] |}.
Proof. intros H. unfold DecodePaymentRequest, call, bind. cbn. now rewrite H. Qed.

Lemma DecodePaymentRequest_structured env paymentRequest decodedPayReq memo w :
  DecodePayReq env paymentRequest = Success decodedPayReq ->
  proto_Unmarshal env (list_byte_of_string (lnrpc.PayReq_Description decodedPayReq))
    = (memo, None) ->
  DecodePaymentRequest env paymentRequest w
  = {| res := Ok memo; world := w; events := [CallDecodePayReq paymentRequest] |}.
Proof.
  intros H Hu. unfold DecodePaymentRequest, call, bind. cbn. rewrite H. cbn.
  now rewrite Hu.
Qed.

Lemma DecodePaymentRequest_fallback env paymentRequest decodedPayReq partial e w :
  DecodePayReq env paymentRequest = Success decodedPayReq ->
  proto_Unmarshal env (list_byte_of_string (lnrpc.PayReq_Description decodedPayReq))
    = (partial, Some e) ->
  DecodePaymentRequest env paymentRequest w
  = {| res := res (decodeStandardInvoice decodedPayReq partial w);
       world := w; events := [CallDecodePayReq paymentRequest] |}.
Proof.
  intros H Hu. unfold DecodePaymentRequest, call, bind. cbn. rewrite H. cbn.
  rewrite Hu.
  destruct (decodeStandardInvoice_out decodedPayReq partial) as (memo & Hm & _).
  now rewrite !Hm.
Qed.

(** [DecodePaymentRequest] makes one call, leaves the world as it is,
    and either returns a memo or the error of the node. *)
Lemma DecodePaymentRequest_out env paymentRequest w :
  exists r,
    DecodePaymentRequest env paymentRequest w
    = {| res := r; world := w; events := [CallDecodePayReq paymentRequest] |}
    /\ (forall w', res (DecodePaymentRequest env paymentRequest w') = r)
    /\ match DecodePayReq env paymentRequest with
       | Success _ => exists memo, r = Ok memo
       | Failure e => r = Err e
       end.
Proof.
  destruct (DecodePayReq env paymentRequest) as [req | e] eqn:H.
  - destruct (proto_Unmarshal env (list_byte_of_string (lnrpc.PayReq_Description req)))
      as [partial [e |]] eqn:Hu.
    + destruct (decodeStandardInvoice_out req partial) as (memo & Hm & _).
      exists (Ok memo). split; [| split].
      * rewrite (DecodePaymentRequest_fallback _ _ _ _ _ _ H Hu). now rewrite Hm.
      * intros w'. rewrite (DecodePaymentRequest_fallback _ _ _ _ _ _ H Hu). cbn.
        now rewrite Hm.
      * now exists memo.
    + exists (Ok partial). split; [| split].
      * apply (DecodePaymentRequest_structured _ _ _ _ _ H Hu).
      * intros w'. now rewrite (DecodePaymentRequest_structured _ _ _ _ w' H Hu).
      * now exists partial.
  - exists (Err e). split; [| split].
    + now apply DecodePaymentRequest_failure.
    + intros w'. now rewrite (DecodePaymentRequest_failure _ _ _ w' H).
    + reflexivity.
Qed.

(** C1. When the description of a payment request cannot be
    unmarshalled, [DecodePaymentRequest] still returns a memo: its amount
    is the amount the invoice declares; if the description holds exactly
    two separators [" | "] it is split into exactly three fields, which
    become the description, the payee name and the payee image; if not,
    the whole text becomes the description. *)
Theorem legacy_fallback env paymentRequest decodedPayReq partial e w :
  DecodePayReq env paymentRequest = Success decodedPayReq ->
  proto_Unmarshal env (list_byte_of_string (lnrpc.PayReq_Description decodedPayReq))
    = (partial, Some e) ->
  let description := lnrpc.PayReq_Description decodedPayReq in
  exists memo,
    res (DecodePaymentRequest env paymentRequest w) = Ok memo
    /\ data.Amount memo = lnrpc.NumSatoshis decodedPayReq
    /\ (strings.Count description " | " = 2%nat ->
        exists d p u,
          strings.Split description " | " = [d; p; u]
          /\ description = (d ++ " | " ++ p ++ " | " ++ u)%string
          /\ data.Description memo = d
          /\ data.PayeeName memo = p
          /\ data.PayeeImageURL memo = u)
    /\ (strings.Count description " | " <> 2%nat ->
        data.Description memo = description).
Proof.
  intros H Hu description.
  destruct (decodeStandardInvoice_out decodedPayReq partial) as (memo & Hm & Hrest).
  exists memo. split; [| exact Hrest].
  rewrite (DecodePaymentRequest_fallback _ _ _ _ _ _ H Hu). now rewrite Hm.
Qed.

Lemma legacy_fallback_witness :
  exists memo,
    res (DecodePaymentRequest example_env "lnbc-legacy" empty_world) = Ok memo
    /\ data.Amount memo = 1500
    /\ data.Description memo = "Coffee"
    /\ data.PayeeName memo = "Bob"
    /\ data.PayeeImageURL memo = "http://img/bob.png".
Proof.
  destruct (legacy_fallback example_env "lnbc-legacy"
              {| lnrpc.Destination := "02routing"; lnrpc.PaymentHash := "h-legacy";
                 lnrpc.NumSatoshis := 1500; lnrpc.Timestamp := 1540000000;
                 lnrpc.PayReq_Description := "Coffee | Bob | http://img/bob.png" |}
              data.InvoiceMemo_zero "unexpected EOF" empty_world
              eq_refl eq_refl)
    as (memo & Hres & Hamount & Hsplit & _).
  destruct (Hsplit eq_refl) as (d & p & u & Hs & _ & Hd & Hp & Hu).
  injection Hs as <- <- <-.
  exists memo. repeat split; assumption.
Defined.

(** ** Recording payments *)

Arguments DecodePaymentRequest : simpl never.

Ltac in_events H :=
  cbn in H;
  repeat match type of H with
    | _ \/ _ => destruct H as [H | H]
    | False => contradiction
    | _ = _ => first [discriminate H | injection H as ? ? ?; subst]
    end.

Lemma sent_payment_type env paymentItem w p receivedIndex sentTime :
  In (CallAddAccountPayment p receivedIndex sentTime)
     (events (onNewSentPayment env paymentItem w)) ->
  exists paymentRequest decodedReq,
    fetchPaymentRequest_db env (lnrpc.Payment_PaymentHash paymentItem)
      = Success paymentRequest
    /\ DecodePayReq env (string_of_list_byte paymentRequest) = Success decodedReq
    /\ Type_ p = (if String.eqb (lnrpc.Destination decodedReq) (RoutingNodePubKey env)
                  then withdrawalPayment else sentPayment).
Proof.
  unfold onNewSentPayment, fetchPaymentRequest, call, bind.
  cbn [res world events emit ret fail app].
  destruct (fetchPaymentRequest_db env _) as [paymentRequest | e] eqn:Hf;
    cbn [res world events emit ret fail app]; intros H; [| in_events H].
  exists paymentRequest.
  destruct (DecodePaymentRequest_out env (string_of_list_byte paymentRequest) w)
    as (r & Hr & _ & Hcase).
  destruct (0 <? List.length paymentRequest)%nat.
  - rewrite Hr in H. cbn [res world events] in H.
    destruct (DecodePayReq env (string_of_list_byte paymentRequest)) as [req | e].
    + destruct Hcase as [memo ->]. exists req. split; [reflexivity |]. split; [reflexivity |].
      cbn in H. unfold addAccountPayment, attempt, bind in H. cbn in H.
      destruct (addAccountPayment_err env _); in_events H; reflexivity.
    + subst r. in_events H.
  - cbn in H. destruct (DecodePayReq env (string_of_list_byte paymentRequest)) as [req | e];
      in_events H.
Qed.

Lemma length_zero_empty s : (0 <? String.length s)%nat = false <-> s = "".
Proof.
  destruct s; simpl; split; intros H; try reflexivity; discriminate.
Qed.

Lemma received_payment_type env invoice w p receivedIndex sentTime :
  In (CallAddAccountPayment p receivedIndex sentTime)
     (events (onNewReceivedPayment env invoice w)) ->
  exists memo,
    res (DecodePaymentRequest env (lnrpc.Invoice_PaymentRequest invoice) w) = Ok memo
    /\ Type_ p = (if data.TransferRequest memo then depositPayment else receivedPayment).
Proof.
  unfold onNewReceivedPayment, bind.
  destruct (DecodePaymentRequest_out env (lnrpc.Invoice_PaymentRequest invoice) w)
    as (r & Hr & _ & _).
  destruct (0 <? String.length (lnrpc.Invoice_PaymentRequest invoice))%nat.
  - rewrite Hr. cbn [res world events ret]. destruct r as [memo | e |]; intros H;
      [| in_events H | in_events H].
    exists memo. split; [reflexivity |].
    cbn in H. unfold addAccountPayment, bind in H. cbn in H.
    destruct (addAccountPayment_err env _); in_events H; reflexivity.
  - intros H. in_events H.
Qed.

(** C2. Every record that [onNewSentPayment] hands to the store has
    type withdrawal when the destination of the decoded payment request
    is the configured routing node, and type sent when it is not; every
    record that [onNewReceivedPayment] hands to the store has type
    deposit when the decoded memo asks for a transfer, and type received
    when it does not. *)
Theorem payment_classification env :
  (forall paymentItem w p receivedIndex sentTime,
      In (CallAddAccountPayment p receivedIndex sentTime)
         (events (onNewSentPayment env paymentItem w)) ->
      exists paymentRequest decodedReq,
        fetchPaymentRequest_db env (lnrpc.Payment_PaymentHash paymentItem)
          = Success paymentRequest
        /\ DecodePayReq env (string_of_list_byte paymentRequest) = Success decodedReq
        /\ (lnrpc.Destination decodedReq = RoutingNodePubKey env ->
            Type_ p = withdrawalPayment)
        /\ (lnrpc.Destination decodedReq <> RoutingNodePubKey env ->
            Type_ p = sentPayment))
  /\ (forall invoice w p receivedIndex sentTime,
      In (CallAddAccountPayment p receivedIndex sentTime)
         (events (onNewReceivedPayment env invoice w)) ->
      exists memo,
        res (DecodePaymentRequest env (lnrpc.Invoice_PaymentRequest invoice) w) = Ok memo
        /\ (data.TransferRequest memo = true -> Type_ p = depositPayment)
        /\ (data.TransferRequest memo = false -> Type_ p = receivedPayment)).
Proof.
  split.
  - intros paymentItem w p receivedIndex sentTime H.
    destruct (sent_payment_type _ _ _ _ _ _ H) as (paymentRequest & req & Hf & Hd & Ht).
    exists paymentRequest, req. repeat split; auto; intros Hdest; rewrite Ht.
    + apply String.eqb_eq in Hdest. now rewrite Hdest.
    + apply String.eqb_neq in Hdest. now rewrite Hdest.
  - intros invoice w p receivedIndex sentTime H.
    destruct (received_payment_type _ _ _ _ _ _ H) as (memo & Hm & Ht).
    exists memo. repeat split; auto; intros Hflag; rewrite Ht, Hflag; reflexivity.
Qed.

Lemma payment_classification_witness :
  (exists p, In (CallAddAccountPayment p 0 20)
               (events (onNewSentPayment example_env
                          {| lnrpc.Payment_PaymentHash := "h-legacy";
                             lnrpc.Payment_Value := 1500;
                             lnrpc.Payment_CreationDate := 20 |} empty_world))
             /\ Type_ p = withdrawalPayment)
  /\ (exists p, In (CallAddAccountPayment p 7 0)
                  (events (onNewReceivedPayment example_env
                             (example_invoice "lnbc-memo" 7) empty_world))
                /\ Type_ p = depositPayment).
Proof.
  destruct (payment_classification example_env) as [Hsent Hreceived]. split.
  - eexists. split.
    + vm_compute. do 3 right. left. reflexivity.
    + match goal with |- Type_ ?p = _ => set (rec := p) end.
      assert (Hin : In (CallAddAccountPayment rec 0 20)
                      (events (onNewSentPayment example_env
                                 {| lnrpc.Payment_PaymentHash := "h-legacy";
                                    lnrpc.Payment_Value := 1500;
                                    lnrpc.Payment_CreationDate := 20 |} empty_world)))
        by (vm_compute; do 3 right; left; reflexivity).
      destruct (Hsent _ _ _ _ _ Hin) as (bytes & req & Hf & Hd & Hw & _).
      apply Hw. vm_compute in Hf. injection Hf as <-.
      vm_compute in Hd. injection Hd as <-. reflexivity.
  - eexists. split.
    + vm_compute. do 1 right. left. reflexivity.
    + match goal with |- Type_ ?p = _ => set (rec := p) end.
      assert (Hin : In (CallAddAccountPayment rec 7 0)
                      (events (onNewReceivedPayment example_env
                                 (example_invoice "lnbc-memo" 7) empty_world)))
        by (vm_compute; do 1 right; left; reflexivity).
      destruct (Hreceived _ _ _ _ _ Hin) as (memo & Hm & Hdep & _).
      apply Hdep. vm_compute in Hm. injection Hm as <-. reflexivity.
Defined.

(** C9. A settled invoice whose payment request is empty makes
    [onNewReceivedPayment] read the transfer flag through a memo pointer
    that was never assigned: the call panics, records nothing and returns
    no error.  With a payment request that is not empty the call does not
    panic. *)
Theorem received_payment_nil_memo env invoice w :
  (lnrpc.Invoice_PaymentRequest invoice = "" ->
   onNewReceivedPayment env invoice w
   = {| res := Panic; world := w; events := [] |})
  /\ (lnrpc.Invoice_PaymentRequest invoice <> "" ->
      res (onNewReceivedPayment env invoice w) <> Panic).
Proof.
  split.
  - intros H. unfold onNewReceivedPayment, bind. rewrite H. reflexivity.
  - intros H. unfold onNewReceivedPayment, bind.
    destruct (DecodePaymentRequest_out env (lnrpc.Invoice_PaymentRequest invoice) w)
      as (r & Hr & _ & Hcase).
    destruct (0 <? String.length (lnrpc.Invoice_PaymentRequest invoice))%nat eqn:Hlen.
    + rewrite Hr. cbn [res world events ret].
      destruct (DecodePayReq env _).
      * destruct Hcase as [memo ->]. cbn.
        unfold addAccountPayment, bind. cbn.
        destruct (addAccountPayment_err env _); cbn; discriminate.
      * subst r. cbn. discriminate.
    + apply length_zero_empty in Hlen. contradiction.
Qed.

Lemma received_payment_nil_memo_witness :
  onNewReceivedPayment example_env (example_invoice "" 7) empty_world
  = {| res := Panic; world := empty_world; events := [] |}
  /\ res (onNewReceivedPayment example_env (example_invoice "lnbc-memo" 7) empty_world)
     <> Panic.
Proof.
  split.
  - apply (proj1 (received_payment_nil_memo example_env (example_invoice "" 7)
                    empty_world)).
    reflexivity.
  - apply (proj2 (received_payment_nil_memo example_env
                    (example_invoice "lnbc-memo" 7) empty_world)).
    discriminate.
Defined.

(** C10. [GetRelatedInvoice] has no fallback: when the description
    of the payment request cannot be unmarshalled it returns the error of
    the unmarshaller and no invoice, without looking the invoice up,
    where [DecodePaymentRequest] returns a memo. *)
Theorem related_invoice_no_fallback env paymentRequest decodedPayReq partial e w :
  DecodePayReq env paymentRequest = Success decodedPayReq ->
  proto_Unmarshal env (list_byte_of_string (lnrpc.PayReq_Description decodedPayReq))
    = (partial, Some e) ->
  GetRelatedInvoice env paymentRequest w
  = {| res := Err e; world := w; events := [CallDecodePayReq paymentRequest] |}
  /\ exists memo, res (DecodePaymentRequest env paymentRequest w) = Ok memo.
Proof.
  intros H Hu. split.
  - unfold GetRelatedInvoice, call, bind. cbn. rewrite H. cbn. now rewrite Hu.
  - destruct (DecodePaymentRequest_out env paymentRequest w) as (r & Hr & _ & Hcase).
    rewrite H in Hcase. destruct Hcase as [memo ->]. exists memo. now rewrite Hr.
Qed.

Lemma related_invoice_no_fallback_witness :
  GetRelatedInvoice example_env "lnbc-text" empty_world
  = {| res := Err "proto: can't skip unknown wire type"; world := empty_world;
       events := [CallDecodePayReq "lnbc-text"] |}
  /\ exists memo, res (DecodePaymentRequest example_env "lnbc-text" empty_world) = Ok memo.
Proof.
  apply (related_invoice_no_fallback example_env "lnbc-text"
           {| lnrpc.Destination := "03peer"; lnrpc.PaymentHash := "h-text";
              lnrpc.NumSatoshis := 700; lnrpc.Timestamp := 1540000100;
              lnrpc.PayReq_Description := "thanks for lunch" |}
           data.InvoiceMemo_zero "proto: can't skip unknown wire type" empty_world);
    reflexivity.
Defined.

(** C8. For a valid memo, unmarshalling the bytes [proto.Marshal]
    gives for it returns the memo itself and no error; [AddInvoice] hands
    these bytes to the node as the memo of the invoice; for a payment
    request whose description is these bytes [DecodePaymentRequest]
    returns the memo; and whenever the description unmarshals without
    error, [DecodePaymentRequest] returns the unmarshalled memo as it
    is. *)
Theorem structured_round_trip env m :
  proto_Marshal env = proto.Marshal ->
  proto_Unmarshal env = proto.Unmarshal ->
  proto.valid_memo m ->
  proto.Unmarshal (fst (proto.Marshal m)) = (m, None)
  /\ (forall w, exists request,
        events (AddInvoice env m w) = [CallAddInvoice request]
        /\ lnrpc.Invoice_Memo request = string_of_list_byte (fst (proto.Marshal m)))
  /\ (forall paymentRequest decodedPayReq w,
        DecodePayReq env paymentRequest = Success decodedPayReq ->
        lnrpc.PayReq_Description decodedPayReq
          = string_of_list_byte (fst (proto.Marshal m)) ->
        res (DecodePaymentRequest env paymentRequest w) = Ok m)
  /\ (forall paymentRequest decodedPayReq decoded w,
        DecodePayReq env paymentRequest = Success decodedPayReq ->
        proto.Unmarshal (list_byte_of_string (lnrpc.PayReq_Description decodedPayReq))
          = (decoded, None) ->
        res (DecodePaymentRequest env paymentRequest w) = Ok decoded).
Proof.
  intros HM HU Hvalid.
  destruct (protoFacts.Unmarshal_Marshal m Hvalid) as [Herr Hround].
  split; [exact Hround |]. split; [| split].
  - intros w. unfold AddInvoice. rewrite HM.
    destruct (proto.Marshal m) as [memo err] eqn:Hm. cbn in Herr. subst err.
    eexists. split.
    + unfold call, bind. cbn. destruct (AddInvoice_rpc env _); reflexivity.
    + reflexivity.
  - intros paymentRequest decodedPayReq w Hd Hdesc.
    rewrite (DecodePaymentRequest_structured env _ _ m w Hd); [reflexivity |].
    rewrite HU, Hdesc, list_byte_of_string_of_list_byte. exact Hround.
  - intros paymentRequest decodedPayReq decoded w Hd Hdec.
    rewrite (DecodePaymentRequest_structured env _ _ decoded w Hd); [reflexivity |].
    now rewrite HU.
Qed.

Lemma example_memo_valid : proto.valid_memo example_memo.
Proof.
  unfold proto.valid_memo, proto.valid_string, GoInt.is_int64.
  repeat split; try reflexivity; cbn; lia.
Qed.

Lemma structured_round_trip_witness :
  proto.Unmarshal (fst (proto.Marshal example_memo)) = (example_memo, None)
  /\ res (DecodePaymentRequest example_env "lnbc-memo" empty_world) = Ok example_memo.
Proof.
  destruct (structured_round_trip example_env example_memo eq_refl eq_refl
              example_memo_valid) as (Hround & _ & Hdecode & _).
  split; [exact Hround |].
  apply (Hdecode "lnbc-memo"
           {| lnrpc.Destination := "03peer"; lnrpc.PaymentHash := "h-memo";
              lnrpc.NumSatoshis := 1500; lnrpc.Timestamp := 1540000200;
              lnrpc.PayReq_Description :=
                string_of_list_byte (fst (proto.Marshal example_memo)) |});
    reflexivity.
Defined.

(** ** The synchronizer of sent payments *)

Lemma bind_ret_l {A : Type} (k : unit -> M A) w : (ret tt ;;; k tt) w = k tt w.
Proof. unfold bind, ret. cbn. apply out_eta. Qed.

Lemma for_range_filter env cursor l : forall w,
  for_range l (syncSentPayments_body env cursor) w
  = for_range (filter (newer_than cursor) l)
      (fun p => discard (onNewSentPayment env p)) w.
Proof.
  induction l as [| p l IH]; intros w; [reflexivity |].
  cbn [for_range filter]. unfold syncSentPayments_body at 1, newer_than at 1.
  destruct (Z.leb_spec (lnrpc.Payment_CreationDate p) cursor) as [Hle | Hgt].
  - replace (cursor <? lnrpc.Payment_CreationDate p) with false
      by (symmetry; apply Z.ltb_ge; lia).
    rewrite <- IH. unfold bind, ret. cbn. apply out_eta.
  - replace (cursor <? lnrpc.Payment_CreationDate p) with true
      by (symmetry; apply Z.ltb_lt; lia).
    cbn [for_range]. unfold bind.
    destruct (res (discard (onNewSentPayment env p) w)); try reflexivity.
    now rewrite IH.
Qed.

(** C3. A pass of [syncSentPayments] hands to [onNewSentPayment]
    exactly the items of the ledger whose creation date is strictly
    greater than the cursor read at the start of the pass, an item dated
    at the cursor being skipped; so when every item is dated at or before
    the cursor, the pass processes nothing and leaves the records and the
    cursors as they were. *)
Theorem sync_strict_cursor env lightningPayments w :
  ListPayments env = Success lightningPayments ->
  let cursor := lastSentPaymentTime w in
  let processed := filter (newer_than cursor) lightningPayments in
  syncSentPayments env w
  = (call CallListPayments (ListPayments env) ;;;
     fetchPaymentsSyncInfo ;;;
     for_range processed (fun p => discard (onNewSentPayment env p))) w
  /\ (forall p, In p processed <->
                In p lightningPayments /\ cursor < lnrpc.Payment_CreationDate p)
  /\ (Forall (fun p => lnrpc.Payment_CreationDate p <= cursor) lightningPayments ->
      syncSentPayments env w
      = {| res := Ok tt; world := w;
           events := [CallListPayments; CallFetchPaymentsSyncInfo] |}).
Proof.
  intros HL cursor processed.
  assert (Heq : syncSentPayments env w
    = (call CallListPayments (ListPayments env) ;;;
       fetchPaymentsSyncInfo ;;;
       for_range processed (fun p => discard (onNewSentPayment env p))) w).
  { unfold syncSentPayments, call, fetchPaymentsSyncInfo, bind. rewrite HL. cbn.
    now rewrite for_range_filter. }
  split; [exact Heq |]. split.
  - intros p. unfold processed. rewrite filter_In. unfold newer_than.
    now rewrite Z.ltb_lt.
  - intros Hall. rewrite Heq.
    assert (Hnil : processed = []).
    { unfold processed. clear Heq HL. induction Hall as [| p l Hp _ IH]; [reflexivity |].
      cbn. unfold newer_than at 1.
      replace (cursor <? lnrpc.Payment_CreationDate p) with false
        by (symmetry; apply Z.ltb_ge; lia).
      exact IH. }
    rewrite Hnil. unfold call, fetchPaymentsSyncInfo, bind. rewrite HL. reflexivity.
Qed.

Lemma sync_strict_cursor_witness :
  syncSentPayments example_env synced_world
  = {| res := Ok tt; world := synced_world;
       events := [CallListPayments; CallFetchPaymentsSyncInfo] |}.
Proof.
  refine (proj2 (proj2 (sync_strict_cursor example_env _ synced_world eq_refl)) _).
  repeat constructor; cbn; lia.
Defined.

(** An error of [onNewSentPayment] never leaves the body of the loop:
    the body returns no error, whatever the item. *)
Lemma syncSentPayments_body_no_error env cursor paymentItem w e :
  res (syncSentPayments_body env cursor paymentItem w) <> Err e.
Proof.
  unfold syncSentPayments_body.
  destruct (lnrpc.Payment_CreationDate paymentItem <=? cursor); [discriminate |].
  unfold discard, attempt, bind.
  destruct (res (onNewSentPayment env paymentItem w)); discriminate.
Qed.

(** C5. In a pass over a ledger of two new items, the first of which
    fails in [DecodePayReq], the pass does not stop at the failure: the
    second item is processed and persisted, the cursor moves past both,
    and the pass returns no error. *)
Theorem sync_continues_after_failed_item :
  let garbled := {| lnrpc.Payment_PaymentHash := "h-garbled";
                    lnrpc.Payment_Value := 5;
                    lnrpc.Payment_CreationDate := 10 |} in
  let o := syncSentPayments example_env empty_world in
  ListPayments example_env
  = Success [garbled;
             {| lnrpc.Payment_PaymentHash := "h-legacy";
                lnrpc.Payment_Value := 1500;
                lnrpc.Payment_CreationDate := 20 |}]
  /\ res (onNewSentPayment example_env garbled empty_world)
     = Err "invalid payment request"
  /\ res o = Ok tt
  /\ map PaymentHash (payments (world o)) = ["h-legacy"]
  /\ lastSentPaymentTime (world o) = 20.
Proof. vm_compute. repeat split; reflexivity. Qed.


(** ** The pending payments *)

Lemma createPendingPayment_fails env htlc height w :
  lookup_fails env htlc ->
  exists e, res (createPendingPayment env htlc height w) = Err e.
Proof.
  intros [e Hin Hl | e Hin Hf | invoice e Hin Hl Hne Hd | bytes e Hin Hf Hne Hd];
    unfold createPendingPayment, fetchPaymentRequest, call, bind;
    rewrite Hin; cbn; rewrite ?Hl, ?Hf; cbn.
  - now exists e.
  - now exists e.
  - apply String.eqb_neq in Hne. rewrite Hne. cbn. rewrite Hd. now exists e.
  - apply String.eqb_neq in Hne. rewrite Hne. cbn. rewrite Hd. now exists e.
Qed.

Ltac decode_out :=
  match goal with
  | |- context [DecodePaymentRequest ?env ?s ?w] =>
      let r := fresh "r" in
      let Hr := fresh "Hr" in
      let Hc := fresh "Hc" in
      destruct (DecodePaymentRequest_out env s w) as (r & Hr & _ & Hc);
      rewrite Hr; cbn [res world events]
  end.

Lemma createPendingPayment_no_panic env htlc height w :
  res (createPendingPayment env htlc height w) <> Panic.
Proof.
  unfold createPendingPayment, fetchPaymentRequest, call, bind, time_Now.
  cbn [res world events emit ret fail app].
  destruct (lnrpc.Incoming htlc).
  - destruct (LookupInvoice env _) as [invoice | e];
      cbn [res world events emit ret fail app]; [| discriminate].
    destruct (String.eqb (lnrpc.Invoice_PaymentRequest invoice) "");
      cbn [res world events emit ret fail app]; [discriminate |].
    destruct (DecodePayReq env (lnrpc.Invoice_PaymentRequest invoice)) as [req | e] eqn:Hd;
      cbn [res world events emit ret fail app]; [| discriminate].
    decode_out. rewrite Hd in Hc. destruct Hc as [memo ->]. discriminate.
  - destruct (fetchPaymentRequest_db env _) as [bytes | e];
      cbn [res world events emit ret fail app]; [| discriminate].
    destruct (String.eqb (string_of_list_byte bytes) "");
      cbn [res world events emit ret fail app]; [discriminate |].
    destruct (DecodePayReq env (string_of_list_byte bytes)) as [req | e] eqn:Hd;
      cbn [res world events emit ret fail app]; [| discriminate].
    decode_out. rewrite Hd in Hc. destruct Hc as [memo ->]. discriminate.
Qed.

Lemma for_append_fails {A B : Type} (body : A -> M B) x :
  (forall w, exists e, res (body x w) = Err e) ->
  (forall y w, res (body y w) <> Panic) ->
  forall l acc w, In x l -> exists e, res (for_append l body acc w) = Err e.
Proof.
  intros Hx Hnp. induction l as [| y l IH]; intros acc w Hin; [contradiction |].
  cbn [for_append]. unfold bind.
  destruct (res (body y w)) as [b | e |] eqn:Hy.
  - destruct Hin as [-> | Hin].
    + destruct (Hx w) as [e He]. congruence.
    + cbn. now apply IH.
  - now exists e.
  - now apply Hnp in Hy.
Qed.

Lemma for_append_length {A B : Type} (body : A -> M B) :
  forall l acc w r,
    res (for_append l body acc w) = Ok r ->
    List.length r = (List.length acc + List.length l)%nat.
Proof.
  induction l as [| y l IH]; intros acc w r H; cbn [for_append] in H.
  - cbn in H. injection H as <-. cbn. lia.
  - unfold bind in H. destruct (res (body y w)) as [b | e |]; cbn in H;
      try discriminate.
    apply IH in H. rewrite H, length_app. cbn. lia.
Qed.

(** C7. When the daemon is not ready [getPendingPayments] returns
    the empty list and no error, and calls nobody; when it is ready, a
    lookup that fails for any one HTLC of any channel makes the whole
    call return an error, and a list is returned only with one entry for
    every HTLC. *)
Theorem pending_all_or_nothing env w :
  (DaemonReady env = false ->
   getPendingPayments env w = {| res := Ok []; world := w; events := [] |})
  /\ (DaemonReady env = true ->
      forall channels chainInfo htlc,
        ListChannels env = Success channels ->
        GetInfo env = Success chainInfo ->
        In htlc (pendingHtlcs channels) ->
        lookup_fails env htlc ->
        exists e, res (getPendingPayments env w) = Err e)
  /\ (DaemonReady env = true ->
      forall pending,
        res (getPendingPayments env w) = Ok pending ->
        exists channels,
          ListChannels env = Success channels
          /\ List.length pending = List.length (pendingHtlcs channels)).
Proof.
  split; [| split].
  - intros Hready. unfold getPendingPayments. now rewrite Hready.
  - intros Hready channels chainInfo htlc Hch Hinfo Hin Hfail.
    unfold getPendingPayments, call, bind. rewrite Hready, Hch, Hinfo.
    cbn [res world events emit ret fail app].
    apply for_append_fails with (x := htlc); auto.
    + intros w'. now apply createPendingPayment_fails.
    + intros y w'. apply createPendingPayment_no_panic.
  - intros Hready pending H.
    unfold getPendingPayments, call, bind in H. rewrite Hready in H.
    cbn [res world events emit ret fail app] in H.
    destruct (ListChannels env) as [channels | e];
      cbn [res world events emit ret fail app] in H; [| discriminate].
    exists channels. split; [reflexivity |].
    destruct (GetInfo env) as [info | e];
      cbn [res world events emit ret fail app] in H; [| discriminate].
    apply for_append_length in H. exact H.
Qed.

Lemma pending_all_or_nothing_witness :
  getPendingPayments (example_env_with false [htlc_incoming]) empty_world
  = {| res := Ok []; world := empty_world; events := [] |}
  /\ (exists e,
        res (getPendingPayments
               (example_env_with true [htlc_incoming; htlc_unknown; htlc_outgoing])
               empty_world) = Err e)
  /\ (exists pending,
        res (getPendingPayments example_env empty_world) = Ok pending
        /\ List.length pending = 2%nat).
Proof.
  split; [| split].
  - apply (proj1 (pending_all_or_nothing (example_env_with false [htlc_incoming])
                    empty_world)).
    reflexivity.
  - refine (proj1 (proj2 (pending_all_or_nothing
                            (example_env_with true
                               [htlc_incoming; htlc_unknown; htlc_outgoing])
                            empty_world))
              eq_refl _ _ htlc_unknown eq_refl eq_refl _ _).
    + cbn. right. left. reflexivity.
    + apply invoice_lookup_fails with (e := "unable to locate invoice"); reflexivity.
  - eexists. split; [vm_compute; reflexivity |].
    destruct (proj2 (proj2 (pending_all_or_nothing example_env empty_world))
                eq_refl _ ltac:(vm_compute; reflexivity))
      as (channels & Hch & Hlen).
    injection Hch as <-. exact Hlen.
Defined.


(** ** The assembled list *)

Lemma Sorted_impl {A : Type} (R R' : A -> A -> Prop) l :
  (forall a b, R a b -> R' a b) -> Sorted R l -> Sorted R' l.
Proof.
  intros HR. induction 1 as [| a l Hs IH Hh]; constructor; auto.
  destruct Hh; constructor; auto.
Qed.

Lemma Sorted_adjacent {A : Type} (R : A -> A -> Prop) l :
  Sorted R l ->
  forall i a b, nth_error l i = Some a -> nth_error l (S i) = Some b -> R a b.
Proof.
  induction 1 as [| x l Hs IH Hh]; intros i a b Ha Hb.
  - destruct i; discriminate.
  - destruct i as [| i].
    + cbn in Ha, Hb. injection Ha as <-. destruct l as [| y l]; [discriminate |].
      cbn in Hb. injection Hb as <-. now inversion Hh.
    + cbn in Ha. eapply IH; eauto.
Qed.

Lemma newer_asym a b : newer a b = true -> newer b a = false.
Proof. unfold newer. rewrite Z.ltb_lt, Z.ltb_ge. lia. Qed.

(** C6. Every list [GetPayments] returns is in descending order of
    creation time: each item is at least as recent as the item after it.
    The list holds the persisted records and the pending ones, all of
    them and nothing else. *)
Theorem payments_sorted env w l :
  res (GetPayments env w) = Ok l ->
  Sorted (fun a b => data.Payment_CreationTimestamp a
                     >= data.Payment_CreationTimestamp b) l
  /\ (forall i a b,
        nth_error l i = Some a -> nth_error l (S i) = Some b ->
        data.Payment_CreationTimestamp a >= data.Payment_CreationTimestamp b)
  /\ exists pending,
       res (getPendingPayments env w) = Ok pending
       /\ Permutation l (map paymentItem (payments w ++ pending)).
Proof.
  intros H.
  assert (Hl : exists pending,
             res (getPendingPayments env w) = Ok pending
             /\ l = sort.Slice newer (map paymentItem (payments w ++ pending))).
  { unfold GetPayments, fetchAllAccountPayments, bind in H.
    cbn [res world events emit ret fail app] in H.
    destruct (fetchAllAccountPayments_err env);
      cbn [res world events emit ret fail app] in H; [discriminate |].
    destruct (res (getPendingPayments env w)) as [pending | e |] eqn:Hp;
      cbn [res world events emit ret fail app] in H; try discriminate.
    injection H as <-. now exists pending. }
  destruct Hl as (pending & Hp & ->).
  assert (Hs : Sorted (fun a b => data.Payment_CreationTimestamp a
                                  >= data.Payment_CreationTimestamp b)
                 (sort.Slice newer (map paymentItem (payments w ++ pending)))).
  { eapply Sorted_impl; [| apply (sortFacts.Slice_sorted newer newer_asym)].
    intros a b Hab. unfold newer in Hab. apply Z.ltb_ge in Hab. lia. }
  split; [exact Hs |]. split.
  - apply Sorted_adjacent. exact Hs.
  - exists pending. split; [exact Hp |]. apply sortFacts.Slice_perm.
Qed.

Lemma payments_sorted_witness :
  exists l,
    res (GetPayments example_env synced_world) = Ok l
    /\ map data.Payment_CreationTimestamp l = [1540000200; 1540000100; 15; 14]
    /\ Sorted (fun a b => data.Payment_CreationTimestamp a
                          >= data.Payment_CreationTimestamp b) l.
Proof.
  eexists. split; [vm_compute; reflexivity |]. split; [reflexivity |].
  refine (proj1 (payments_sorted example_env synced_world _ _)).
  vm_compute. reflexivity.
Defined.

(** ** The expiration of a pending payment *)

(** While the HTLC has not expired and the heights are those of a real
    chain, the minutes are ten a block. *)
Lemma minutesToExpire_in_range htlc currentBlockHeight :
  0 <= currentBlockHeight <= lnrpc.ExpirationHeight htlc ->
  (lnrpc.ExpirationHeight htlc - currentBlockHeight) * 10 < 2 ^ 32 ->
  minutesToExpire htlc currentBlockHeight
  = (lnrpc.ExpirationHeight htlc - currentBlockHeight) * 10.
Proof.
  intros Hh Hlt. unfold minutesToExpire, GoInt.uint32.
  rewrite (Z.mod_small (lnrpc.ExpirationHeight htlc - currentBlockHeight)) by lia.
  now rewrite Z.mod_small by lia.
Qed.

(** While the minutes fit a [Duration], the timestamp is the clock plus
    sixty seconds a minute. *)
Lemma pendingExpirationTimestamp_in_range now minutes :
  0 <= minutes -> minutes * time.Minute < 2 ^ 63 ->
  0 <= time.nsec now < 1000000000 ->
  pendingExpirationTimestamp now minutes = time.sec now + 60 * minutes.
Proof.
  intros Hm Hlt Hn. unfold pendingExpirationTimestamp, time.Unix, time.Add.
  unfold time.Minute, time.Second in *.
  rewrite GoIntFacts.int64_id by (unfold GoInt.is_int64; lia).
  replace (minutes * (60 * 1000000000)) with (60 * minutes * 1000000000) by lia.
  rewrite Z.quot_mul by lia. rewrite Z.rem_mul by lia.
  rewrite Z.add_0_r.
  replace (1000000000 <=? time.nsec now) with false by (symmetry; apply Z.leb_gt; lia).
  replace (time.nsec now <? 0) with false by (symmetry; apply Z.ltb_ge; lia).
  reflexivity.
Qed.

(** At height 100 an HTLC that expires at height 106 has 60 minutes. *)
Example minutesToExpire_106_100 : minutesToExpire htlc_incoming 100 = 60.
Proof. reflexivity. Qed.

(** C4. For an HTLC that expired one block ago (expiration height 99
    at height 100), [createPendingPayment] returns no error, but the
    minutes it computes are 4294967286 and not -10, and the expiration
    timestamp is 556379872 seconds before the clock and not 600: the
    difference of the heights wraps in [uint32] and the product with
    [time.Minute] wraps in [int64]. *)
Theorem expired_htlc_expiry_wraps :
  lnrpc.ExpirationHeight htlc_expired = 99
  /\ (lnrpc.ExpirationHeight htlc_expired - 100) * 10 = -10
  /\ minutesToExpire htlc_expired 100 = 4294967286
  /\ exists p,
       res (createPendingPayment example_env htlc_expired 100 empty_world) = Ok p
       /\ clock example_env 1 = {| time.sec := 1540000001; time.nsec := 0 |}
       /\ PendingExpirationTimestamp p = 1540000001 - 556379872
       /\ PendingExpirationTimestamp p <> 1540000001 + 60 * -10.
Proof.
  split; [reflexivity |]. split; [reflexivity |]. split; [reflexivity |].
  eexists. split; [vm_compute; reflexivity |].
  split; [reflexivity |]. split; [reflexivity |]. discriminate.
Qed.

(** * More properties of payments.go *)

(** ** Decoding a payment request *)

(** X1. [DecodePaymentRequest] asks the node once, changes nothing and
    never panics; it returns an error exactly when the node's
    [DecodePayReq] fails, and then that error: a description that cannot
    be unmarshalled is never an error. *)
Theorem DecodePaymentRequest_fails_with_node env paymentRequest w :
  world (DecodePaymentRequest env paymentRequest w) = w
  /\ events (DecodePaymentRequest env paymentRequest w) = [CallDecodePayReq paymentRequest]
  /\ res (DecodePaymentRequest env paymentRequest w) <> Panic
  /\ (forall e, res (DecodePaymentRequest env paymentRequest w) = Err e
                <-> DecodePayReq env paymentRequest = Failure e).
Proof.
  destruct (DecodePaymentRequest_out env paymentRequest w) as (r & Hr & _ & Hcase).
  rewrite Hr. cbn [res world events]. repeat split.
  - destruct (DecodePayReq env paymentRequest).
    + destruct Hcase as [memo ->]. discriminate.
    + subst r. discriminate.
  - intros H. destruct (DecodePayReq env paymentRequest).
    + destruct Hcase as [memo ->]. discriminate.
    + subst r. congruence.
  - intros H. rewrite H in Hcase. now subst r.
Qed.

(** X2. The fallback writes into the message the failed unmarshal left
    behind: the payer name, the payer image, the transfer flag and the
    expiry of the returned memo are those the unmarshal had read before
    its error, and when the text is not split the payee name and the
    payee image are too. *)
Theorem fallback_keeps_unmarshalled_fields env paymentRequest decodedPayReq partial e w :
  DecodePayReq env paymentRequest = Success decodedPayReq ->
  proto_Unmarshal env (list_byte_of_string (lnrpc.PayReq_Description decodedPayReq))
    = (partial, Some e) ->
  exists memo,
    res (DecodePaymentRequest env paymentRequest w) = Ok memo
    /\ data.PayerName memo = data.PayerName partial
    /\ data.PayerImageURL memo = data.PayerImageURL partial
    /\ data.TransferRequest memo = data.TransferRequest partial
    /\ data.Expiry memo = data.Expiry partial
    /\ (strings.Count (lnrpc.PayReq_Description decodedPayReq) " | " <> 2%nat ->
        data.PayeeName memo = data.PayeeName partial
        /\ data.PayeeImageURL memo = data.PayeeImageURL partial).
Proof.
  intros H Hu. rewrite (DecodePaymentRequest_fallback _ _ _ _ _ w H Hu).
  cbn [res]. unfold decodeStandardInvoice.
  destruct (Nat.eqb_spec (strings.Count (lnrpc.PayReq_Description decodedPayReq) separator) 2)
    as [Hc | Hc].
  - destruct (stringsFacts.Split_two _ separator separator_not_empty Hc)
      as (d & p & u & Hs & _ & _).
    rewrite Hs. eexists. split; [reflexivity |]. cbn.
    repeat split; try reflexivity;
      match goal with Hne : _ <> _ |- _ => exfalso; apply Hne; exact Hc end.
  - eexists. split; [reflexivity |]. cbn. repeat split; reflexivity.
Qed.

Lemma fallback_keeps_unmarshalled_fields_witness :
  exists memo,
    res (DecodePaymentRequest (with_DecodePayReq example_env lollipops_DecodePayReq)
           "lnbc-lollipops" empty_world) = Ok memo
    /\ data.Description memo = "81 lollipops"
    /\ data.TransferRequest memo = true.
Proof.
  destruct (fallback_keeps_unmarshalled_fields
              (with_DecodePayReq example_env lollipops_DecodePayReq) "lnbc-lollipops"
              {| lnrpc.Destination := "03peer"; lnrpc.PaymentHash := "h-lollipops";
                 lnrpc.NumSatoshis := 81; lnrpc.Timestamp := 1540000400;
                 lnrpc.PayReq_Description := "81 lollipops" |}
              (data.set_TransferRequest true data.InvoiceMemo_zero)
              "proto: can't skip unknown wire type" empty_world eq_refl eq_refl)
    as (memo & Hres & _ & _ & Hflag & _).
  exists memo. split; [exact Hres |]. split; [| exact Hflag].
  vm_compute in Hres. injection Hres as <-. reflexivity.
Defined.

(** ** The standard invoice *)

Lemma take_app_length d r : strings.take (String.length d) (d ++ r) = d.
Proof. induction d as [| c d IH]; simpl; [now destruct r | now rewrite IH]. Qed.

Lemma drop_app_length d r n :
  strings.drop (String.length d + n) (d ++ r) = strings.drop n r.
Proof. induction d as [| c d IH]; simpl; auto. Qed.

Lemma HasPrefix_bar_no_bar d r :
  no_bar d = true -> strings.HasPrefix (d ++ separator ++ r) "| " = false.
Proof.
  destruct d as [| c d]; [reflexivity |]. cbn [no_bar append strings.HasPrefix].
  intros H. apply andb_prop in H as [Hc _].
  apply negb_true_iff in Hc. rewrite Ascii.eqb_sym in Hc. now rewrite Hc.
Qed.

(** In a text that starts with a field without ['|'], the first
    separator is the one after the field. *)
Lemma Index_no_bar d r :
  no_bar d = true ->
  strings.Index (d ++ separator ++ r) separator = Some (String.length d).
Proof.
  induction d as [| c d IH]; intros H; [reflexivity |].
  cbn [no_bar] in H. apply andb_prop in H as [Hc Hd].
  change (strings.Index (String c d ++ separator ++ r) separator)
    with (if Ascii.eqb " " c && strings.HasPrefix (d ++ separator ++ r) "| "
          then Some 0%nat
          else option_map S (strings.Index (d ++ separator ++ r) separator)).
  rewrite (HasPrefix_bar_no_bar d r Hd), andb_false_r.
  rewrite (IH Hd). reflexivity.
Qed.

Lemma standardMemo_split invoice :
  no_bar (data.Description invoice) = true ->
  no_bar (data.PayeeName invoice) = true ->
  strings.Index (data.PayeeImageURL invoice) separator = None ->
  strings.Count (standardMemo invoice) separator = 2%nat
  /\ strings.Split (standardMemo invoice) separator
     = [data.Description invoice; data.PayeeName invoice; data.PayeeImageURL invoice].
Proof.
  intros Hd Hp Hu. unfold standardMemo.
  set (d := data.Description invoice) in *. set (p := data.PayeeName invoice) in *.
  set (u := data.PayeeImageURL invoice) in *.
  assert (Hdrop1 : strings.drop (String.length d + String.length separator)
                     (d ++ separator ++ p ++ separator ++ u)
                   = (p ++ separator ++ u)%string)
    by (rewrite drop_app_length; reflexivity).
  assert (Hdrop2 : strings.drop (String.length p + String.length separator)
                     (p ++ separator ++ u) = u)
    by (rewrite drop_app_length; reflexivity).
  assert (Hcount : strings.Count (d ++ separator ++ p ++ separator ++ u) separator = 2%nat).
  { rewrite stringsFacts.Count_eq by apply separator_not_empty.
    rewrite (Index_no_bar d _ Hd), Hdrop1.
    rewrite stringsFacts.Count_eq by apply separator_not_empty.
    rewrite (Index_no_bar p _ Hp), Hdrop2.
    rewrite stringsFacts.Count_eq by apply separator_not_empty.
    now rewrite Hu. }
  split; [exact Hcount |].
  unfold strings.Split. rewrite Hcount. cbn [strings.genSplit_loop].
  rewrite (Index_no_bar d _ Hd), Hdrop1, (Index_no_bar p _ Hp), Hdrop2.
  now rewrite !take_app_length.
Qed.

(** X3. A memo whose description and payee name hold no ['|'] and
    whose payee image holds no separator survives the standard invoice:
    [AddStandardInvoice] hands the node the three fields joined by
    [" | "], and for a payment request that carries this text and does not
    unmarshal, [DecodePaymentRequest] returns the three fields as they
    were, with the amount the invoice declares. *)
Theorem standard_invoice_round_trip env invoice paymentRequest decodedPayReq partial e w :
  no_bar (data.Description invoice) = true ->
  no_bar (data.PayeeName invoice) = true ->
  strings.Index (data.PayeeImageURL invoice) " | " = None ->
  DecodePayReq env paymentRequest = Success decodedPayReq ->
  lnrpc.PayReq_Description decodedPayReq = standardMemo invoice ->
  proto_Unmarshal env (list_byte_of_string (standardMemo invoice)) = (partial, Some e) ->
  (exists request,
      events (AddStandardInvoice env invoice w) = [CallAddInvoice request]
      /\ lnrpc.Invoice_Memo request = standardMemo invoice
      /\ lnrpc.Invoice_Value request = data.Amount invoice)
  /\ exists memo,
       res (DecodePaymentRequest env paymentRequest w) = Ok memo
       /\ data.Description memo = data.Description invoice
       /\ data.PayeeName memo = data.PayeeName invoice
       /\ data.PayeeImageURL memo = data.PayeeImageURL invoice
       /\ data.Amount memo = lnrpc.NumSatoshis decodedPayReq.
Proof.
  intros Hd Hp Hu Hdec Hdesc Hun. split.
  - eexists. split.
    + unfold AddStandardInvoice, call, bind. cbn.
      destruct (AddInvoice_rpc env _); reflexivity.
    + split; reflexivity.
  - destruct (standardMemo_split invoice Hd Hp Hu) as [Hcount Hsplit].
    rewrite <- Hdesc in Hun, Hcount, Hsplit.
    rewrite (DecodePaymentRequest_fallback _ _ _ _ _ w Hdec Hun). cbn [res].
    unfold decodeStandardInvoice. rewrite Hcount, Hsplit. cbn.
    eexists. split; [reflexivity |]. cbn. repeat split.
Qed.

Lemma standard_invoice_round_trip_witness :
  exists memo,
    res (DecodePaymentRequest example_env "lnbc-legacy" empty_world) = Ok memo
    /\ data.Description memo = "Coffee"
    /\ data.PayeeName memo = "Bob"
    /\ data.PayeeImageURL memo = "http://img/bob.png"
    /\ data.Amount memo = 1500.
Proof.
  destruct (standard_invoice_round_trip example_env
              (data.set_Description "Coffee" example_memo) "lnbc-legacy"
              {| lnrpc.Destination := "02routing"; lnrpc.PaymentHash := "h-legacy";
                 lnrpc.NumSatoshis := 1500; lnrpc.Timestamp := 1540000000;
                 lnrpc.PayReq_Description := "Coffee | Bob | http://img/bob.png" |}
              data.InvoiceMemo_zero "unexpected EOF" empty_world
              eq_refl eq_refl eq_refl eq_refl eq_refl eq_refl)
    as (_ & memo & H).
  exists memo. exact H.
Defined.

(** ** The structured invoice *)

(** X4. When [proto.Marshal] reports an error, [AddInvoice] returns it
    and does not call the node.  Otherwise it calls the node once, with
    the marshalled bytes as the memo, the amount of the memo, the private
    flag and an expiry that is the expiry of the memo when that is
    positive and 3600 when it is not, and it returns what the node
    returns. *)
Theorem AddInvoice_request env invoice w :
  (forall memo e,
      proto_Marshal env invoice = (memo, Some e) ->
      AddInvoice env invoice w = {| res := Err e; world := w; events := [] |})
  /\ (forall memo,
      proto_Marshal env invoice = (memo, None) ->
      exists request,
        events (AddInvoice env invoice w) = [CallAddInvoice request]
        /\ world (AddInvoice env invoice w) = w
        /\ res (AddInvoice env invoice w)
           = match AddInvoice_rpc env request with
             | Success paymentRequest => Ok paymentRequest
             | Failure e => Err e
             end
        /\ lnrpc.Invoice_Memo request = string_of_list_byte memo
        /\ lnrpc.Invoice_Value request = data.Amount invoice
        /\ lnrpc.Invoice_Private request = true
        /\ 0 < lnrpc.Invoice_Expiry request
        /\ (0 < data.Expiry invoice ->
            lnrpc.Invoice_Expiry request = data.Expiry invoice)
        /\ (data.Expiry invoice <= 0 -> lnrpc.Invoice_Expiry request = 3600)).
Proof.
  split.
  - intros memo e H. unfold AddInvoice. now rewrite H.
  - intros memo H. unfold AddInvoice. rewrite H. eexists.
    split; [| split; [| split]].
    + unfold call, bind. cbn. destruct (AddInvoice_rpc env _); reflexivity.
    + unfold call, bind. cbn. destruct (AddInvoice_rpc env _); reflexivity.
    + unfold call, bind. cbn. destruct (AddInvoice_rpc env _); reflexivity.
    + cbn. repeat split; unfold defaultInvoiceExpiry;
        destruct (Z.leb_spec (data.Expiry invoice) 0); lia.
Qed.

Lemma AddInvoice_request_witness :
  AddInvoice example_env broken_memo empty_world
  = {| res := Err "proto: invalid UTF-8 string"; world := empty_world; events := [] |}
  /\ exists request,
       events (AddInvoice example_env (data.set_Expiry 0 example_memo) empty_world)
       = [CallAddInvoice request]
       /\ lnrpc.Invoice_Expiry request = 3600.
Proof.
  split.
  - apply (proj1 (AddInvoice_request example_env broken_memo empty_world)
             (fst (proto.Marshal broken_memo)) "proto: invalid UTF-8 string").
    vm_compute. reflexivity.
  - destruct (proj2 (AddInvoice_request example_env (data.set_Expiry 0 example_memo)
                       empty_world)
                (fst (proto.Marshal (data.set_Expiry 0 example_memo)))
                ltac:(vm_compute; reflexivity))
      as (request & Hev & _ & _ & _ & _ & _ & _ & _ & Hdefault).
    exists request. split; [exact Hev |]. apply Hdefault. cbn. lia.
Defined.

(** ** The related invoice *)

(** X5. Whenever [GetRelatedInvoice] returns an invoice, its memo is
    the memo [DecodePaymentRequest] returns for the same payment
    request, the invoice was looked up under the payment hash of the
    decoded request, and the paid amount and the settled flag are those
    of the invoice found; the node was asked twice and nothing was
    written. *)
Theorem GetRelatedInvoice_agrees env paymentRequest invoice w :
  res (GetRelatedInvoice env paymentRequest w) = Ok invoice ->
  exists decodedPayReq lookup,
    DecodePayReq env paymentRequest = Success decodedPayReq
    /\ LookupInvoice env {| lnrpc.RHashStr := lnrpc.PaymentHash decodedPayReq;
                            lnrpc.RHash := [] |} = Success lookup
    /\ data.Invoice_AmtPaid invoice = lnrpc.Invoice_AmtPaidSat lookup
    /\ data.Invoice_Settled invoice = lnrpc.Invoice_Settled lookup
    /\ res (DecodePaymentRequest env paymentRequest w) = Ok (data.Invoice_Memo invoice)
    /\ world (GetRelatedInvoice env paymentRequest w) = w
    /\ events (GetRelatedInvoice env paymentRequest w)
       = [CallDecodePayReq paymentRequest;
          CallLookupInvoice {| lnrpc.RHashStr := lnrpc.PaymentHash decodedPayReq;
                               lnrpc.RHash := [] |}].
Proof.
  unfold GetRelatedInvoice, call, bind. cbn [res world events emit ret fail app].
  destruct (DecodePayReq env paymentRequest) as [req | e] eqn:Hd;
    cbn [res world events emit ret fail app]; [| discriminate].
  destruct (proto_Unmarshal env _) as [memo [e |]] eqn:Hu;
    cbn [res world events emit ret fail app]; [discriminate |].
  destruct (LookupInvoice env _) as [lookup | e] eqn:Hl;
    cbn [res world events emit ret fail app]; [| discriminate].
  intros H. injection H as <-. exists req, lookup. cbn.
  repeat split; auto.
  now rewrite (DecodePaymentRequest_structured env _ _ memo w Hd Hu).
Qed.

Lemma GetRelatedInvoice_agrees_witness :
  exists invoice,
    res (GetRelatedInvoice
           (with_LookupInvoice example_env
              (fun _ => Success (example_invoice "lnbc-memo" 0)))
           "lnbc-memo" empty_world) = Ok invoice
    /\ data.Invoice_Memo invoice = example_memo
    /\ data.Invoice_AmtPaid invoice = 1500.
Proof.
  eexists. split; [vm_compute; reflexivity |].
  destruct (GetRelatedInvoice_agrees
              (with_LookupInvoice example_env
                 (fun _ => Success (example_invoice "lnbc-memo" 0)))
              "lnbc-memo" _ empty_world ltac:(vm_compute; reflexivity))
    as (req & lookup & _ & Hl & Hpaid & _).
  split; [reflexivity |]. rewrite Hpaid. injection Hl as <-. reflexivity.
Defined.

(** ** Running a computation step by step *)

Lemma bind_cases {A B : Type} (m : M A) (k : A -> M B) w r w1 evs :
  m w = {| res := r; world := w1; events := evs |} ->
  bind m k w
  = match r with
    | Ok a =>
        {| res := res (k a w1); world := world (k a w1);
           events := evs ++ events (k a w1) |}
    | Err e => {| res := Err e; world := w1; events := evs |}
    | Panic => {| res := Panic; world := w1; events := evs |}
    end.
Proof. intros H. unfold bind. rewrite H. reflexivity. Qed.

Lemma call_out {A : Type} ev (r : Result A) w :
  call ev r w
  = {| res := match r with Success a => Ok a | Failure e => Err e end;
       world := w; events := [ev] |}.
Proof. unfold call, bind. cbn. destruct r; reflexivity. Qed.

Lemma attempt_out (m : M unit) w r w1 evs :
  m w = {| res := r; world := w1; events := evs |} ->
  attempt m w
  = {| res := match r with
              | Ok _ => Ok None
              | Err e => Ok (Some e)
              | Panic => Panic
              end;
       world := w1; events := evs |}.
Proof. intros H. unfold attempt. rewrite H. cbn. destruct r; reflexivity. Qed.

Lemma addAccountPayment_out env p receivedIndex sentTime w :
  addAccountPayment env p receivedIndex sentTime w
  = {| res := match addAccountPayment_err env p with
              | Some e => Err e
              | None => Ok tt
              end;
       world := world (addAccountPayment env p receivedIndex sentTime w);
       events := [CallAddAccountPayment p receivedIndex sentTime] |}.
Proof.
  unfold addAccountPayment, bind. cbn.
  destruct (addAccountPayment_err env p); reflexivity.
Qed.

(** One step of a sequence whose first computation is known: the rest
    is named and left folded. *)
Ltac bind_step H :=
  match goal with
  | |- context [bind ?m ?k ?w] =>
      rewrite (bind_cases m k w _ _ _ H); cbn beta iota;
      cbn [res world events]
  end.

(** What [onNewSentPayment] does once the saved request of the item has
    been found and decodes. *)
Lemma onNewSentPayment_recorded env paymentItem paymentRequest decodedReq w :
  fetchPaymentRequest_db env (lnrpc.Payment_PaymentHash paymentItem)
    = Success paymentRequest ->
  paymentRequest <> [] ->
  DecodePayReq env (string_of_list_byte paymentRequest) = Success decodedReq ->
  exists memo,
    res (DecodePaymentRequest env (string_of_list_byte paymentRequest) w) = Ok memo
    /\ let p :=
         {| Type_ := if String.eqb (lnrpc.Destination decodedReq) (RoutingNodePubKey env)
                     then withdrawalPayment else sentPayment;
            Amount := lnrpc.Payment_Value paymentItem;
            CreationTimestamp := lnrpc.Payment_CreationDate paymentItem;
            Description := data.Description memo;
            PayeeName := data.PayeeName memo;
            PayeeImageURL := data.PayeeImageURL memo;
            PayerName := data.PayerName memo;
            PayerImageURL := data.PayerImageURL memo;
            TransferRequest := data.TransferRequest memo;
            PaymentHash := lnrpc.PaymentHash decodedReq;
            RedeemTxID := "";
            Destination := lnrpc.Destination decodedReq;
            PendingExpirationHeight := 0;
            PendingExpirationTimestamp := 0 |} in
       let sentTime := GoInt.uint64 (lnrpc.Payment_CreationDate paymentItem) in
       onNewSentPayment env paymentItem w
       = {| res := match addAccountPayment_err env p with
                   | Some e => Err e
                   | None => Ok tt
                   end;
            world := world (addAccountPayment env p 0 sentTime w);
            events := [CallFetchPaymentRequest (lnrpc.Payment_PaymentHash paymentItem);
                       CallDecodePayReq (string_of_list_byte paymentRequest);
                       CallDecodePayReq (string_of_list_byte paymentRequest);
                       CallAddAccountPayment p 0 sentTime;
                       BackupScheduled; AccountChanged] |}.
Proof.
  intros Hf Hne Hd.
  destruct (DecodePaymentRequest_out env (string_of_list_byte paymentRequest) w)
    as (r & Hr & _ & Hcase).
  rewrite Hd in Hcase. destruct Hcase as [memo ->].
  exists memo. split; [now rewrite Hr |]. intros p sentTime.
  assert (Hlen : (0 <? List.length paymentRequest)%nat = true)
    by (destruct paymentRequest; [contradiction | reflexivity]).
  unfold onNewSentPayment.
  bind_step (call_out (CallFetchPaymentRequest (lnrpc.Payment_PaymentHash paymentItem))
               (fetchPaymentRequest_db env (lnrpc.Payment_PaymentHash paymentItem)) w).
  rewrite Hf. cbn beta iota. rewrite Hlen.
  assert (Hmemo : (memo0 <- DecodePaymentRequest env (string_of_list_byte paymentRequest) ;;
                   ret (Some memo0)) w
                  = {| res := Ok (Some memo); world := w;
                       events := [CallDecodePayReq (string_of_list_byte paymentRequest)] |})
    by (rewrite (bind_cases _ _ _ _ _ _ Hr); reflexivity).
  bind_step Hmemo.
  bind_step (call_out (CallDecodePayReq (string_of_list_byte paymentRequest))
               (DecodePayReq env (string_of_list_byte paymentRequest)) w).
  rewrite Hd. cbn beta iota.
  assert (Hderef : deref (Some memo) w = {| res := Ok memo; world := w; events := [] |})
    by reflexivity.
  bind_step Hderef. fold p. fold sentTime.
  bind_step (attempt_out _ _ _ _ _ (addAccountPayment_out env p 0 sentTime w)).
  destruct (addAccountPayment_err env p) as [e |]; cbn; reflexivity.
Qed.

(** What [onNewSentPayment] does when it records nothing. *)
Lemma onNewSentPayment_unrecorded env paymentItem w :
  let hash := lnrpc.Payment_PaymentHash paymentItem in
  (forall e,
      fetchPaymentRequest_db env hash = Failure e ->
      onNewSentPayment env paymentItem w
      = {| res := Err e; world := w; events := [CallFetchPaymentRequest hash] |})
  /\ (forall paymentRequest e,
      fetchPaymentRequest_db env hash = Success paymentRequest ->
      DecodePayReq env (string_of_list_byte paymentRequest) = Failure e ->
      onNewSentPayment env paymentItem w
      = {| res := Err e; world := w;
           events := [CallFetchPaymentRequest hash;
                      CallDecodePayReq (string_of_list_byte paymentRequest)] |})
  /\ (forall decodedReq,
      fetchPaymentRequest_db env hash = Success [] ->
      DecodePayReq env "" = Success decodedReq ->
      onNewSentPayment env paymentItem w
      = {| res := Panic; world := w;
           events := [CallFetchPaymentRequest hash; CallDecodePayReq ""] |}).
Proof.
  intros hash. split; [| split].
  - intros e Hf. unfold onNewSentPayment.
    bind_step (call_out (CallFetchPaymentRequest hash)
                 (fetchPaymentRequest_db env hash) w).
    fold hash. now rewrite Hf.
  - intros paymentRequest e Hf Hd. unfold onNewSentPayment.
    bind_step (call_out (CallFetchPaymentRequest hash)
                 (fetchPaymentRequest_db env hash) w).
    fold hash. rewrite Hf. cbn beta iota.
    destruct paymentRequest as [| b bytes].
    + cbn [List.length Nat.ltb Nat.leb].
      assert (Hnone : ret (A := option data.InvoiceMemo) None w
                      = {| res := Ok None; world := w; events := [] |}) by reflexivity.
      bind_step Hnone.
      bind_step (call_out (CallDecodePayReq (string_of_list_byte []))
                   (DecodePayReq env (string_of_list_byte [])) w).
      now rewrite Hd.
    + cbn [List.length Nat.ltb Nat.leb].
      assert (Hmemo : (memo0 <- DecodePaymentRequest env (string_of_list_byte (b :: bytes)) ;;
                       ret (Some memo0)) w
                      = {| res := Err e; world := w;
                           events := [CallDecodePayReq (string_of_list_byte (b :: bytes))] |})
        by (rewrite (bind_cases _ _ _ _ _ _ (DecodePaymentRequest_failure env _ e w Hd));
            reflexivity).
      bind_step Hmemo. reflexivity.
  - intros decodedReq Hf Hd. unfold onNewSentPayment.
    bind_step (call_out (CallFetchPaymentRequest hash)
                 (fetchPaymentRequest_db env hash) w).
    fold hash. rewrite Hf. cbn beta iota. cbn [List.length Nat.ltb Nat.leb].
    assert (Hnone : ret (A := option data.InvoiceMemo) None w
                    = {| res := Ok None; world := w; events := [] |}) by reflexivity.
    bind_step Hnone.
    bind_step (call_out (CallDecodePayReq (string_of_list_byte []))
                 (DecodePayReq env (string_of_list_byte [])) w).
    change (string_of_list_byte []) with "". rewrite Hd. reflexivity.
Qed.

(** ** Recording a sent payment *)

(** X6. [onNewSentPayment] panics exactly when no payment request was
    saved for the payment (the saved text is empty) and the node
    nevertheless decodes the empty text: the memo pointer is then nil
    when the record is built.  When the node rejects the empty text, the
    call returns the node's error instead. *)
Theorem onNewSentPayment_panics env paymentItem w :
  res (onNewSentPayment env paymentItem w) = Panic
  <-> fetchPaymentRequest_db env (lnrpc.Payment_PaymentHash paymentItem) = Success []
      /\ exists decodedReq, DecodePayReq env "" = Success decodedReq.
Proof.
  destruct (onNewSentPayment_unrecorded env paymentItem w) as (Hfail & Hdecode & Hnil).
  destruct (fetchPaymentRequest_db env (lnrpc.Payment_PaymentHash paymentItem))
    as [bytes | e] eqn:Hf.
  2: { rewrite (Hfail e eq_refl). split; [discriminate | intros [H _]; discriminate]. }
  destruct (DecodePayReq env (string_of_list_byte bytes)) as [req | e] eqn:Hd.
  2: { rewrite (Hdecode bytes e eq_refl Hd). split; [discriminate |].
       intros [H [req Hreq]]. injection H as ->. cbn in Hd. congruence. }
  destruct bytes as [| b bytes].
  - rewrite (Hnil req eq_refl Hd). split; [| reflexivity].
    intros _. split; [reflexivity | now exists req].
  - destruct (onNewSentPayment_recorded env paymentItem (b :: bytes) req w Hf
                ltac:(discriminate) Hd) as (memo & _ & Hout).
    cbv zeta in Hout. rewrite Hout. cbn [res].
    split; [| intros [H _]; discriminate].
    destruct (addAccountPayment_err env _); discriminate.
Qed.

Lemma onNewSentPayment_panics_witness :
  res (onNewSentPayment
         (with_saved_request (with_DecodePayReq example_env lollipops_DecodePayReq)
            "h-unsaved" [])
         {| lnrpc.Payment_PaymentHash := "h-unsaved"; lnrpc.Payment_Value := 9;
            lnrpc.Payment_CreationDate := 30 |} empty_world) = Panic.
Proof.
  apply (proj2 (onNewSentPayment_panics _ _ _)).
  split; [reflexivity |]. eexists. reflexivity.
Defined.

(** X7. Once the saved payment request of a ledger item decodes,
    [onNewSentPayment] hands the store one record, with the amount and
    the creation date of the ledger item and with the payment hash and
    the destination of the decoded request, and the creation date as the
    new cursor.  Whether or not the store accepts the record, the backup
    is scheduled and the account change is announced; the error of the
    store is returned after that. *)
Theorem onNewSentPayment_after_store env paymentItem paymentRequest decodedReq w :
  fetchPaymentRequest_db env (lnrpc.Payment_PaymentHash paymentItem)
    = Success paymentRequest ->
  paymentRequest <> [] ->
  DecodePayReq env (string_of_list_byte paymentRequest) = Success decodedReq ->
  exists p,
    events (onNewSentPayment env paymentItem w)
    = [CallFetchPaymentRequest (lnrpc.Payment_PaymentHash paymentItem);
       CallDecodePayReq (string_of_list_byte paymentRequest);
       CallDecodePayReq (string_of_list_byte paymentRequest);
       CallAddAccountPayment p 0 (GoInt.uint64 (lnrpc.Payment_CreationDate paymentItem));
       BackupScheduled; AccountChanged]
    /\ res (onNewSentPayment env paymentItem w)
       = match addAccountPayment_err env p with
         | Some e => Err e
         | None => Ok tt
         end
    /\ Amount p = lnrpc.Payment_Value paymentItem
    /\ CreationTimestamp p = lnrpc.Payment_CreationDate paymentItem
    /\ PaymentHash p = lnrpc.PaymentHash decodedReq
    /\ Destination p = lnrpc.Destination decodedReq.
Proof.
  intros Hf Hne Hd.
  destruct (onNewSentPayment_recorded env paymentItem paymentRequest decodedReq w
              Hf Hne Hd) as (memo & _ & Hout).
  cbv zeta in Hout. eexists. rewrite Hout. cbn [res events].
  split; [reflexivity |]. split; [reflexivity |]. repeat split.
Qed.

Lemma onNewSentPayment_after_store_witness :
  res (onNewSentPayment
         (with_store_errors example_env None (fun _ => Some "bucket is read-only"))
         {| lnrpc.Payment_PaymentHash := "h-legacy"; lnrpc.Payment_Value := 1500;
            lnrpc.Payment_CreationDate := 20 |} empty_world)
  = Err "bucket is read-only"
  /\ In AccountChanged
       (events (onNewSentPayment
                  (with_store_errors example_env None (fun _ => Some "bucket is read-only"))
                  {| lnrpc.Payment_PaymentHash := "h-legacy"; lnrpc.Payment_Value := 1500;
                     lnrpc.Payment_CreationDate := 20 |} empty_world)).
Proof.
  destruct (onNewSentPayment_after_store
              (with_store_errors example_env None (fun _ => Some "bucket is read-only"))
              {| lnrpc.Payment_PaymentHash := "h-legacy"; lnrpc.Payment_Value := 1500;
                 lnrpc.Payment_CreationDate := 20 |}
              (list_byte_of_string "lnbc-legacy")
              {| lnrpc.Destination := "02routing"; lnrpc.PaymentHash := "h-legacy";
                 lnrpc.NumSatoshis := 1500; lnrpc.Timestamp := 1540000000;
                 lnrpc.PayReq_Description := "Coffee | Bob | http://img/bob.png" |}
              empty_world eq_refl ltac:(discriminate) eq_refl)
    as (p & Hev & Hres & _).
  split; [exact Hres |]. rewrite Hev. cbn. auto 10.
Defined.

(** ** Recording a received payment *)

(** X8. For a settled invoice whose payment request decodes,
    [onNewReceivedPayment] hands the store one record, with the hex text
    of the invoice's hash, the paid amount and the settle date, and the
    settle index as the new cursor.  When the store rejects the record the
    error is returned at once and nothing is announced; only when the
    store accepts it are the paid invoice notified, the backup scheduled
    and the account change announced, in this order. *)
Theorem onNewReceivedPayment_after_store env invoice decodedPayReq w :
  lnrpc.Invoice_PaymentRequest invoice <> "" ->
  DecodePayReq env (lnrpc.Invoice_PaymentRequest invoice) = Success decodedPayReq ->
  exists p,
    PaymentHash p = hex.EncodeToString (lnrpc.Invoice_RHash invoice)
    /\ Amount p = lnrpc.Invoice_AmtPaidSat invoice
    /\ CreationTimestamp p = lnrpc.Invoice_SettleDate invoice
    /\ (forall e,
          addAccountPayment_err env p = Some e ->
          onNewReceivedPayment env invoice w
          = {| res := Err e; world := w;
               events := [CallDecodePayReq (lnrpc.Invoice_PaymentRequest invoice);
                          CallAddAccountPayment p (lnrpc.Invoice_SettleIndex invoice) 0] |})
    /\ (addAccountPayment_err env p = None ->
        res (onNewReceivedPayment env invoice w) = Ok tt
        /\ events (onNewReceivedPayment env invoice w)
           = [CallDecodePayReq (lnrpc.Invoice_PaymentRequest invoice);
              CallAddAccountPayment p (lnrpc.Invoice_SettleIndex invoice) 0;
              Notification data.NotificationEvent_INVOICE_PAID;
              BackupScheduled; AccountChanged]).
Proof.
  intros Hne Hd.
  assert (Hlen : (0 <? String.length (lnrpc.Invoice_PaymentRequest invoice))%nat = true).
  { destruct (0 <? String.length (lnrpc.Invoice_PaymentRequest invoice))%nat eqn:Hl;
      [reflexivity |]. apply length_zero_empty in Hl. contradiction. }
  destruct (DecodePaymentRequest_out env (lnrpc.Invoice_PaymentRequest invoice) w)
    as (r & Hr & _ & Hcase).
  rewrite Hd in Hcase. destruct Hcase as [memo ->].
  unfold onNewReceivedPayment, bind. rewrite Hlen, Hr.
  cbn [res world events emit ret fail app deref].
  match goal with |- context [addAccountPayment env ?rec _ _] => exists rec end.
  split; [reflexivity |]. split; [reflexivity |]. split; [reflexivity |].
  unfold addAccountPayment, bind. cbn [res world events emit ret fail app].
  split.
  - intros e He. cbn in He. rewrite He. reflexivity.
  - intros He. cbn in He. rewrite He. split; reflexivity.
Qed.

Lemma onNewReceivedPayment_after_store_witness :
  exists p,
    onNewReceivedPayment
      (with_store_errors example_env None (fun _ => Some "bucket is read-only"))
      (example_invoice "lnbc-memo" 7) empty_world
    = {| res := Err "bucket is read-only"; world := empty_world;
         events := [CallDecodePayReq "lnbc-memo"; CallAddAccountPayment p 7 0] |}
    /\ PaymentHash p = "0aff".
Proof.
  destruct (onNewReceivedPayment_after_store
              (with_store_errors example_env None (fun _ => Some "bucket is read-only"))
              (example_invoice "lnbc-memo" 7)
              {| lnrpc.Destination := "03peer"; lnrpc.PaymentHash := "h-memo";
                 lnrpc.NumSatoshis := 1500; lnrpc.Timestamp := 1540000200;
                 lnrpc.PayReq_Description :=
                   string_of_list_byte (fst (proto.Marshal example_memo)) |}
              empty_world ltac:(discriminate) eq_refl)
    as (p & Hhash & _ & _ & Hfail & _).
  exists p. split; [| exact Hhash].
  apply Hfail. reflexivity.
Defined.

(** ** A pass of the synchronizer *)

Lemma sent_record_fields env paymentItem w p receivedIndex sentTime :
  In (CallAddAccountPayment p receivedIndex sentTime)
     (events (onNewSentPayment env paymentItem w)) ->
  Amount p = lnrpc.Payment_Value paymentItem
  /\ CreationTimestamp p = lnrpc.Payment_CreationDate paymentItem
  /\ receivedIndex = 0
  /\ sentTime = GoInt.uint64 (lnrpc.Payment_CreationDate paymentItem).
Proof.
  intros H.
  destruct (onNewSentPayment_unrecorded env paymentItem w) as (Hfail & Hdecode & Hnil).
  destruct (fetchPaymentRequest_db env (lnrpc.Payment_PaymentHash paymentItem))
    as [bytes | e] eqn:Hf.
  2: { rewrite (Hfail e eq_refl) in H. in_events H. }
  destruct (DecodePayReq env (string_of_list_byte bytes)) as [req | e] eqn:Hd.
  2: { rewrite (Hdecode bytes e eq_refl Hd) in H. in_events H. }
  destruct bytes as [| b bytes].
  - rewrite (Hnil req eq_refl Hd) in H. in_events H.
  - destruct (onNewSentPayment_recorded env paymentItem (b :: bytes) req w Hf
                ltac:(discriminate) Hd) as (memo & _ & Hout).
    cbv zeta in Hout. rewrite Hout in H. cbn [events] in H.
    in_events H. repeat split.
Qed.

Lemma events_discard (m : M unit) w : events (discard m w) = events (m w).
Proof.
  unfold discard, attempt, bind. destruct (res (m w)); cbn; now rewrite ?app_nil_r.
Qed.

Lemma for_range_events {A : Type} (body : A -> M unit) ev :
  forall l w, In ev (events (for_range l body w)) ->
              exists x w', In x l /\ In ev (events (body x w')).
Proof.
  induction l as [| x l IH]; intros w H; [contradiction |].
  cbn [for_range] in H. unfold bind in H.
  destruct (res (body x w)); cbn [events] in H.
  - apply in_app_or in H as [H | H].
    + exists x, w. split; [now left | exact H].
    + destruct (IH _ H) as (y & w' & Hy & Hev). exists y, w'. split; [now right | exact Hev].
  - exists x, w. split; [now left | exact H].
  - exists x, w. split; [now left | exact H].
Qed.

(** X9. Every record a pass of [syncSentPayments] hands to the store
    comes from an item of the ledger that is strictly newer than the
    cursor read at the start of the pass: it has the amount and the
    creation date of that item, it leaves the settle index alone, and it
    moves the cursor of sent payments to the creation date of the item. *)
Theorem synced_records_from_ledger env w p receivedIndex sentTime :
  In (CallAddAccountPayment p receivedIndex sentTime)
     (events (syncSentPayments env w)) ->
  exists ledger item,
    ListPayments env = Success ledger
    /\ In item ledger
    /\ lastSentPaymentTime w < lnrpc.Payment_CreationDate item
    /\ Amount p = lnrpc.Payment_Value item
    /\ CreationTimestamp p = lnrpc.Payment_CreationDate item
    /\ receivedIndex = 0
    /\ sentTime = GoInt.uint64 (lnrpc.Payment_CreationDate item).
Proof.
  unfold syncSentPayments, call, fetchPaymentsSyncInfo, bind.
  cbn [res world events emit ret fail app].
  destruct (ListPayments env) as [ledger | e];
    cbn [res world events emit ret fail app fst]; intros H; [| in_events H].
  destruct H as [H | [H | H]]; try discriminate.
  apply for_range_events in H as (item & w' & Hin & Hev).
  unfold syncSentPayments_body in Hev.
  destruct (Z.leb_spec (lnrpc.Payment_CreationDate item) (lastSentPaymentTime w));
    [contradiction |].
  rewrite events_discard in Hev.
  exists ledger, item. split; [reflexivity |]. split; [exact Hin |]. split; [lia |].
  now apply (sent_record_fields env item w').
Qed.

Lemma synced_records_from_ledger_witness :
  exists p,
    In (CallAddAccountPayment p 0 20) (events (syncSentPayments example_env empty_world))
    /\ Amount p = 1500.
Proof.
  eexists. split; [vm_compute; do 7 right; left; reflexivity |].
  match goal with |- Amount ?p = _ => set (rec := p) end.
  assert (Hin : In (CallAddAccountPayment rec 0 20)
                  (events (syncSentPayments example_env empty_world)))
    by (vm_compute; do 7 right; left; reflexivity).
  destruct (synced_records_from_ledger example_env empty_world rec 0 20 Hin)
    as (ledger & item & _ & _ & _ & Hamount & _).
  reflexivity.
Defined.

Lemma for_range_no_error {A : Type} (body : A -> M unit) :
  (forall x w e, res (body x w) <> Err e) ->
  forall l w e, res (for_range l body w) <> Err e.
Proof.
  intros Hbody. induction l as [| x l IH]; intros w e; [discriminate |].
  cbn [for_range]. unfold bind.
  destruct (res (body x w)) as [[] | e' |] eqn:Hx; cbn [res].
  - apply IH.
  - now apply Hbody in Hx.
  - discriminate.
Qed.

(** X10. [syncSentPayments] returns an error exactly when the
    node's [ListPayments] fails; it then returns that error, having
    asked nothing else and changed nothing.  No failure on an item of the
    ledger is ever returned to the caller. *)
Theorem sync_error_is_ledger_error env w e :
  (res (syncSentPayments env w) = Err e <-> ListPayments env = Failure e)
  /\ (ListPayments env = Failure e ->
      syncSentPayments env w
      = {| res := Err e; world := w; events := [CallListPayments] |}).
Proof.
  assert (Hfail : ListPayments env = Failure e ->
                  syncSentPayments env w
                  = {| res := Err e; world := w; events := [CallListPayments] |}).
  { intros H. unfold syncSentPayments, call, bind. rewrite H. reflexivity. }
  split; [| exact Hfail]. split.
  - unfold syncSentPayments, call, fetchPaymentsSyncInfo, bind.
    cbn [res world events emit ret fail app].
    destruct (ListPayments env) as [ledger | e'];
      cbn [res world events emit ret fail app fst]; intros H.
    + exfalso. revert H. apply for_range_no_error. intros x w' e'.
      apply syncSentPayments_body_no_error.
    + congruence.
  - intros H. now rewrite (Hfail H).
Qed.

Lemma sync_error_is_ledger_error_witness :
  syncSentPayments (with_ListPayments example_env (Failure "node is down")) synced_world
  = {| res := Err "node is down"; world := synced_world; events := [CallListPayments] |}.
Proof.
  apply (proj2 (sync_error_is_ledger_error
                  (with_ListPayments example_env (Failure "node is down"))
                  synced_world "node is down")).
  reflexivity.
Defined.

(** ** The loop of the watcher *)

Lemma watchPayments_loop_cut env before e after :
  forall w, watchPayments_loop env (before ++ Failure e :: after) w
            = watchPayments_loop env before w.
Proof.
  induction before as [| r before IH]; intros w; [reflexivity |].
  cbn [app watchPayments_loop]. destruct r as [invoice | e']; [| reflexivity].
  destruct (lnrpc.Invoice_Settled invoice); [| apply IH].
  unfold bind. destruct (res (attempt (onNewReceivedPayment env invoice) w)) as [[e'' |] | |];
    try reflexivity.
  now rewrite IH.
Qed.

Lemma watchPayments_loop_unsettled env stream :
  Forall (fun r => match r with
                   | Success invoice => lnrpc.Invoice_Settled invoice = false
                   | Failure _ => True
                   end) stream ->
  forall w, watchPayments_loop env stream w = {| res := Ok tt; world := w; events := [] |}.
Proof.
  induction 1 as [| r stream Hr _ IH]; intros w; [reflexivity |].
  cbn [watchPayments_loop]. destruct r as [invoice | e]; [| reflexivity].
  rewrite Hr. apply IH.
Qed.

(** X11. The loop of [watchPayments] does nothing for an invoice that
    is not settled; it ends at the first receive error, so that nothing
    delivered after the error is processed; and it ends at the first
    settled invoice that [onNewReceivedPayment] fails to record, so that
    nothing delivered after that invoice is processed either. *)
Theorem watchPayments_loop_stops env w :
  (forall stream,
      Forall (fun r => match r with
                       | Success invoice => lnrpc.Invoice_Settled invoice = false
                       | Failure _ => True
                       end) stream ->
      watchPayments_loop env stream w = {| res := Ok tt; world := w; events := [] |})
  /\ (forall before e after,
      watchPayments_loop env (before ++ Failure e :: after) w
      = watchPayments_loop env before w)
  /\ (forall invoice e after,
      lnrpc.Invoice_Settled invoice = true ->
      res (onNewReceivedPayment env invoice w) = Err e ->
      watchPayments_loop env (Success invoice :: after) w
      = {| res := Ok tt; world := world (onNewReceivedPayment env invoice w);
           events := events (onNewReceivedPayment env invoice w) |}).
Proof.
  split; [| split].
  - intros stream H. now apply watchPayments_loop_unsettled.
  - intros before e after. apply watchPayments_loop_cut.
  - intros invoice e after Hs He. cbn [watchPayments_loop]. rewrite Hs.
    unfold bind, attempt. rewrite He. cbn. now rewrite app_nil_r.
Qed.

Lemma watchPayments_loop_stops_witness :
  watchPayments_loop
    (with_store_errors example_env None (fun _ => Some "bucket is read-only"))
    [Success (example_invoice "lnbc-memo" 7); Success (example_invoice "lnbc-memo" 8)]
    empty_world
  = {| res := Ok tt; world := empty_world;
       events := events (onNewReceivedPayment
                           (with_store_errors example_env None
                              (fun _ => Some "bucket is read-only"))
                           (example_invoice "lnbc-memo" 7) empty_world) |}.
Proof.
  apply (proj2 (proj2 (watchPayments_loop_stops
                         (with_store_errors example_env None
                            (fun _ => Some "bucket is read-only"))
                         empty_world))
           (example_invoice "lnbc-memo" 7) "bucket is read-only"
           [Success (example_invoice "lnbc-memo" 8)]);
    reflexivity.
Defined.

(** ** Resolving the pending payments *)

Lemma same_store_refl w : same_store w w.
Proof. repeat split. Qed.

Lemma same_store_trans w1 w2 w3 :
  same_store w1 w2 -> same_store w2 w3 -> same_store w1 w3.
Proof. unfold same_store. intros (? & ? & ?) (? & ? & ?). repeat split; congruence. Qed.

Ltac no_decode_call :=
  match goal with
  | H : forall pr : string, ~ _ |- _ =>
      exfalso; eapply H; right; left; reflexivity
  end.

Lemma time_Now_out env w :
  time_Now env w
  = {| res := Ok (clock env (ticks w));
       world := {| payments := payments w;
                   lastSentPaymentTime := lastSentPaymentTime w;
                   lastSettledIndex := lastSettledIndex w;
                   ticks := S (ticks w) |};
       events := [] |}.
Proof. reflexivity. Qed.

(** The part of [createPendingPayment] after the request was looked
    up. *)
Ltac pending_tail env w :=
  bind_step (time_Now_out env w);
  match goal with
  | |- context [bind (time_Now env) ?k ?w1] => bind_step (time_Now_out env w1)
  end;
  cbn [ticks];
  match goal with
  | |- context [String.eqb ?pr ""] =>
      destruct (String.eqb pr "");
      [ cbn [res world events ret app];
        split; [repeat split |]; split; [repeat constructor |];
        intros p H; injection H as <-; cbn; repeat split;
        intros pr' [H | []]; discriminate
      | destruct (DecodePayReq env pr) as [req | e] eqn:Hd;
        match goal with
        | |- context [bind (call ?ev ?r) ?k ?w2] => bind_step (call_out ev r w2)
        end;
        [ match goal with
          | |- context [bind (DecodePaymentRequest env pr) ?k ?w2] =>
              let r := fresh "r" in
              let Hr := fresh "Hr" in
              let Hind := fresh "Hind" in
              let Hc := fresh "Hc" in
              destruct (DecodePaymentRequest_out env pr w2) as (r & Hr & Hind & Hc);
              rewrite Hd in Hc; destruct Hc as [memo ->];
              bind_step Hr; cbn [res world events ret app]; clear Hr;
              split; [repeat split |]; split; [repeat constructor |];
              intros p H; injection H as <-; cbn; repeat split;
              [ intros pr' [H | [H | [H | []]]]; try discriminate;
                injection H as H; rewrite <- H; exists req, memo; rewrite (Hind w);
                repeat split; exact Hd
              | no_decode_call .. ]
          end
        | cbn [app]; split; [repeat split |]; split; [repeat constructor | discriminate] ] ]
  end.

(** What [createPendingPayment] does, in one statement: it reads the
    clock twice and writes nothing; the record it returns is built from
    the HTLC, and from the payment request when one was found. *)
Lemma createPendingPayment_spec env htlc height w :
  let o := createPendingPayment env htlc height w in
  same_store w (world o)
  /\ Forall (fun ev => store_write ev = false) (events o)
  /\ forall p, res o = Ok p ->
       Type_ p = (if lnrpc.Incoming htlc then receivedPayment else sentPayment)
       /\ Amount p = lnrpc.HTLC_Amount htlc
       /\ PendingExpirationHeight p = lnrpc.ExpirationHeight htlc
       /\ RedeemTxID p = ""
       /\ PendingExpirationTimestamp p
          = pendingExpirationTimestamp (clock env (S (ticks w)))
              (minutesToExpire htlc height)
       /\ (forall pr, In (CallDecodePayReq pr) (events o) ->
           exists req memo,
             DecodePayReq env pr = Success req
             /\ res (DecodePaymentRequest env pr w) = Ok memo
             /\ CreationTimestamp p = lnrpc.Timestamp req
             /\ PaymentHash p = lnrpc.PaymentHash req
             /\ Destination p = lnrpc.Destination req
             /\ Description p = data.Description memo
             /\ PayeeName p = data.PayeeName memo
             /\ PayeeImageURL p = data.PayeeImageURL memo
             /\ PayerName p = data.PayerName memo
             /\ PayerImageURL p = data.PayerImageURL memo
             /\ TransferRequest p = data.TransferRequest memo)
       /\ ((forall pr, ~ In (CallDecodePayReq pr) (events o)) ->
           CreationTimestamp p = time.Unix (clock env (ticks w))
           /\ PaymentHash p = "" /\ Destination p = ""
           /\ Description p = "" /\ TransferRequest p = false).
Proof.
  cbv zeta. unfold createPendingPayment, fetchPaymentRequest.
  destruct (lnrpc.Incoming htlc).
  - set (hash := {| lnrpc.RHashStr := ""; lnrpc.RHash := lnrpc.HashLock htlc |}).
    destruct (LookupInvoice env hash) as [invoice | e].
    + assert (H1 : (invoice0 <- call (CallLookupInvoice hash) (Success invoice) ;;
                    ret (lnrpc.Invoice_PaymentRequest invoice0)) w
                   = {| res := Ok (lnrpc.Invoice_PaymentRequest invoice); world := w;
                        events := [CallLookupInvoice hash] |})
        by (rewrite (bind_cases _ _ _ _ _ _ (call_out _ _ _)); reflexivity).
      bind_step H1. pending_tail env w.
    + assert (H1 : (invoice0 <- call (CallLookupInvoice hash) (Failure e) ;;
                    ret (lnrpc.Invoice_PaymentRequest invoice0)) w
                   = {| res := Err e; world := w; events := [CallLookupInvoice hash] |})
        by (rewrite (bind_cases _ _ _ _ _ _ (call_out _ _ _)); reflexivity).
      bind_step H1.
      split; [apply same_store_refl |]. split; [repeat constructor | discriminate].
  - set (hash := string_of_list_byte (lnrpc.HashLock htlc)).
    destruct (fetchPaymentRequest_db env hash) as [bytes | e].
    + assert (H1 : (payReqBytes <- call (CallFetchPaymentRequest hash) (Success bytes) ;;
                    ret (string_of_list_byte payReqBytes)) w
                   = {| res := Ok (string_of_list_byte bytes); world := w;
                        events := [CallFetchPaymentRequest hash] |})
        by (rewrite (bind_cases _ _ _ _ _ _ (call_out _ _ _)); reflexivity).
      bind_step H1. pending_tail env w.
    + assert (H1 : (payReqBytes <- call (CallFetchPaymentRequest hash) (Failure e) ;;
                    ret (string_of_list_byte payReqBytes)) w
                   = {| res := Err e; world := w; events := [CallFetchPaymentRequest hash] |})
        by (rewrite (bind_cases _ _ _ _ _ _ (call_out _ _ _)); reflexivity).
      bind_step H1.
      split; [apply same_store_refl |]. split; [repeat constructor | discriminate].
Qed.

Lemma for_append_frame {A B : Type} (body : A -> M B) :
  (forall x w, same_store w (world (body x w))
               /\ Forall (fun ev => store_write ev = false) (events (body x w))) ->
  forall l acc w,
    same_store w (world (for_append l body acc w))
    /\ Forall (fun ev => store_write ev = false) (events (for_append l body acc w)).
Proof.
  intros Hbody. induction l as [| x l IH]; intros acc w.
  - split; [apply same_store_refl | constructor].
  - cbn [for_append]. unfold bind. destruct (Hbody x w) as [Hs Hev].
    destruct (res (body x w)) as [y | e |]; cbn [res world events]; auto.
    destruct (IH (acc ++ [y]) (world (body x w))) as [Hs' Hev'].
    split; [eapply same_store_trans; eauto | now apply Forall_app].
Qed.

Lemma for_append_Forall2 {A B : Type} (body : A -> M B) (R : A -> B -> Prop) :
  (forall x w y, res (body x w) = Ok y -> R x y) ->
  forall l acc w r,
    res (for_append l body acc w) = Ok r ->
    exists r', r = acc ++ r' /\ Forall2 R l r'.
Proof.
  intros Hbody. induction l as [| x l IH]; intros acc w r H; cbn [for_append] in H.
  - cbn in H. injection H as <-. exists []. split; [now rewrite app_nil_r | constructor].
  - unfold bind in H. destruct (res (body x w)) as [y | e |] eqn:Hx; cbn [res] in H;
      try discriminate.
    apply IH in H as (r' & -> & HR). exists (y :: r'). split.
    + now rewrite <- app_assoc.
    + constructor; [eapply Hbody; eauto | exact HR].
Qed.

Lemma getPendingPayments_frame env w :
  same_store w (world (getPendingPayments env w))
  /\ Forall (fun ev => store_write ev = false) (events (getPendingPayments env w)).
Proof.
  unfold getPendingPayments. destruct (DaemonReady env).
  2: { split; [apply same_store_refl | constructor]. }
  unfold call, bind. cbn [res world events emit ret fail app].
  destruct (ListChannels env) as [channels | e];
    cbn [res world events emit ret fail app].
  2: { split; [apply same_store_refl | repeat constructor]. }
  destruct (GetInfo env) as [info | e]; cbn [res world events emit ret fail app].
  2: { split; [apply same_store_refl | repeat constructor]. }
  destruct (for_append_frame
              (fun htlc => createPendingPayment env htlc (lnrpc.BlockHeight info))
              (fun x w' => conj (proj1 (createPendingPayment_spec env x _ w'))
                             (proj1 (proj2 (createPendingPayment_spec env x _ w'))))
              (pendingHtlcs channels) [] w) as [Hs Hev].
  split; [exact Hs | repeat constructor; exact Hev].
Qed.

Lemma no_store_write evs p receivedIndex sentTime :
  Forall (fun ev => store_write ev = false) evs ->
  ~ In (CallAddAccountPayment p receivedIndex sentTime) evs.
Proof.
  intros H Hin. rewrite Forall_forall in H. apply H in Hin. discriminate.
Qed.

(** X12. Neither [getPendingPayments] nor [GetPayments] writes to the
    store: after the call the persisted records and the two cursors are
    what they were, and no record is handed to the store.  The pending
    records exist only in the returned list. *)
Theorem pending_never_persisted env w :
  same_store w (world (getPendingPayments env w))
  /\ same_store w (world (GetPayments env w))
  /\ forall p receivedIndex sentTime,
       ~ In (CallAddAccountPayment p receivedIndex sentTime)
            (events (getPendingPayments env w))
       /\ ~ In (CallAddAccountPayment p receivedIndex sentTime)
               (events (GetPayments env w)).
Proof.
  destruct (getPendingPayments_frame env w) as [Hs Hev].
  assert (HG : same_store w (world (GetPayments env w))
               /\ Forall (fun ev => store_write ev = false) (events (GetPayments env w))).
  { unfold GetPayments, fetchAllAccountPayments, bind.
    cbn [res world events emit ret fail app].
    destruct (fetchAllAccountPayments_err env); cbn [res world events emit ret fail app].
    - split; [apply same_store_refl | repeat constructor].
    - destruct (res (getPendingPayments env w)); cbn [res world events];
        (split; [exact Hs | constructor; [reflexivity |]]);
        rewrite ?app_nil_r; exact Hev. }
  destruct HG as [HsG HevG].
  split; [exact Hs |]. split; [exact HsG |].
  intros p receivedIndex sentTime. split; now apply no_store_write.
Qed.

(** X13. A list returned by [getPendingPayments] has one record for
    each HTLC of each channel, in the order of the channels and of their
    HTLCs; the record of an HTLC is of type received when the HTLC is
    incoming and of type sent when it is not, and carries the amount and
    the expiration height of the HTLC. *)
Theorem pending_records_from_htlcs env w pending :
  res (getPendingPayments env w) = Ok pending ->
  (DaemonReady env = false /\ pending = [])
  \/ exists channels,
       DaemonReady env = true
       /\ ListChannels env = Success channels
       /\ Forall2 (fun htlc p =>
                     Type_ p = (if lnrpc.Incoming htlc then receivedPayment
                                else sentPayment)
                     /\ Amount p = lnrpc.HTLC_Amount htlc
                     /\ PendingExpirationHeight p = lnrpc.ExpirationHeight htlc)
            (pendingHtlcs channels) pending.
Proof.
  unfold getPendingPayments. destruct (DaemonReady env).
  2: { cbn. intros H. injection H as <-. now left. }
  unfold call, bind. cbn [res world events emit ret fail app].
  destruct (ListChannels env) as [channels | e];
    cbn [res world events emit ret fail app]; [| discriminate].
  destruct (GetInfo env) as [info | e]; cbn [res world events emit ret fail app];
    [| discriminate].
  intros H. right. exists channels. split; [reflexivity |]. split; [reflexivity |].
  eapply for_append_Forall2 in H as (r' & -> & HR); [exact HR |].
  intros htlc w' p Hp. cbn beta in Hp.
  destruct (proj2 (proj2 (createPendingPayment_spec env htlc _ w')) p Hp)
    as (Ht & Ha & Hh & _).
  now repeat split.
Qed.

Lemma pending_records_from_htlcs_witness :
  exists pending,
    res (getPendingPayments example_env empty_world) = Ok pending
    /\ map Type_ pending = [receivedPayment; sentPayment]
    /\ map Amount pending = [1500; 700].
Proof.
  eexists. split; [vm_compute; reflexivity |].
  destruct (pending_records_from_htlcs example_env empty_world _
              ltac:(vm_compute; reflexivity))
    as [[Hready _] | (channels & _ & Hch & HR)]; [discriminate |].
  split; reflexivity.
Defined.

(** X14. For an HTLC that has not expired, at most 15372286 blocks
    ahead, the record [createPendingPayment] returns expires 600 seconds
    a block after the second reading of the clock, and the minutes are
    ten a block: within this range nothing wraps. *)
Theorem pending_expiry_in_range env htlc height w p :
  0 <= height <= lnrpc.ExpirationHeight htlc ->
  lnrpc.ExpirationHeight htlc - height <= 15372286 ->
  0 <= time.nsec (clock env (S (ticks w))) < 1000000000 ->
  res (createPendingPayment env htlc height w) = Ok p ->
  minutesToExpire htlc height = 10 * (lnrpc.ExpirationHeight htlc - height)
  /\ PendingExpirationTimestamp p
     = time.sec (clock env (S (ticks w)))
       + 600 * (lnrpc.ExpirationHeight htlc - height).
Proof.
  intros Hh Hmax Hn Hp.
  assert (Hm : minutesToExpire htlc height
               = 10 * (lnrpc.ExpirationHeight htlc - height)).
  { rewrite minutesToExpire_in_range; lia. }
  split; [exact Hm |].
  destruct (proj2 (proj2 (createPendingPayment_spec env htlc height w)) p Hp)
    as (_ & _ & _ & _ & Ht & _).
  rewrite Ht, Hm. rewrite pendingExpirationTimestamp_in_range;
    unfold time.Minute, time.Second; lia.
Qed.

Lemma pending_expiry_in_range_witness :
  exists p,
    res (createPendingPayment example_env htlc_incoming 100 empty_world) = Ok p
    /\ PendingExpirationTimestamp p = 1540000001 + 3600.
Proof.
  eexists. split; [vm_compute; reflexivity |].
  refine (proj2 (pending_expiry_in_range example_env htlc_incoming 100 empty_world _
                   _ _ _ _)); cbn; try lia.
  vm_compute. reflexivity.
Defined.

(** X15. The record of a pending payment takes its creation time, its
    payment hash, its destination and its memo fields from the payment
    request whenever [createPendingPayment] decoded one; when it decoded
    none (no request was found for the HTLC), the creation time is the
    first reading of the clock and the hash, the destination and the memo
    fields are empty. *)
Theorem pending_metadata env htlc height w p :
  res (createPendingPayment env htlc height w) = Ok p ->
  (forall pr,
      In (CallDecodePayReq pr) (events (createPendingPayment env htlc height w)) ->
      exists req memo,
        DecodePayReq env pr = Success req
        /\ res (DecodePaymentRequest env pr w) = Ok memo
        /\ CreationTimestamp p = lnrpc.Timestamp req
        /\ PaymentHash p = lnrpc.PaymentHash req
        /\ Destination p = lnrpc.Destination req
        /\ Description p = data.Description memo
        /\ PayeeName p = data.PayeeName memo
        /\ PayeeImageURL p = data.PayeeImageURL memo
        /\ PayerName p = data.PayerName memo
        /\ PayerImageURL p = data.PayerImageURL memo
        /\ TransferRequest p = data.TransferRequest memo)
  /\ ((forall pr,
        ~ In (CallDecodePayReq pr) (events (createPendingPayment env htlc height w))) ->
      CreationTimestamp p = time.Unix (clock env (ticks w))
      /\ PaymentHash p = "" /\ Destination p = ""
      /\ Description p = "" /\ TransferRequest p = false).
Proof.
  intros Hp.
  destruct (proj2 (proj2 (createPendingPayment_spec env htlc height w)) p Hp)
    as (_ & _ & _ & _ & _ & Hfound & Hnone).
  split; assumption.
Qed.

Lemma pending_metadata_witness :
  exists p,
    res (createPendingPayment example_env htlc_incoming 100 empty_world) = Ok p
    /\ CreationTimestamp p = 1540000200
    /\ PaymentHash p = "h-memo".
Proof.
  eexists. split; [vm_compute; reflexivity |].
  destruct (proj1 (pending_metadata example_env htlc_incoming 100 empty_world _
                     ltac:(vm_compute; reflexivity)) "lnbc-memo"
              ltac:(vm_compute; right; left; reflexivity))
    as (req & memo & Hd & _ & Hts & Hhash & _).
  vm_compute in Hd. injection Hd as <-. split; [exact Hts | exact Hhash].
Defined.

(** ** Assembling the list *)

(** X16. [GetPayments] returns a list only when both the store and the
    pending resolution succeed: an error reading the store is returned
    before anything is asked of the node, and an error resolving the
    pending payments is returned although the persisted records were
    read. *)
Theorem GetPayments_failures env w e :
  (fetchAllAccountPayments_err env = Some e ->
   GetPayments env w
   = {| res := Err e; world := w; events := [CallFetchAllAccountPayments] |})
  /\ (fetchAllAccountPayments_err env = None ->
      res (getPendingPayments env w) = Err e ->
      res (GetPayments env w) = Err e).
Proof.
  split.
  - intros H. unfold GetPayments, fetchAllAccountPayments, bind. cbn. now rewrite H.
  - intros H Hp. unfold GetPayments, fetchAllAccountPayments, bind.
    cbn [res world events emit ret fail app]. rewrite H.
    cbn [res world events emit ret fail app]. now rewrite Hp.
Qed.

Lemma GetPayments_failures_witness :
  GetPayments (with_store_errors example_env (Some "bucket missing") (fun _ => None))
    synced_world
  = {| res := Err "bucket missing"; world := synced_world;
       events := [CallFetchAllAccountPayments] |}
  /\ res (GetPayments (example_env_with true [htlc_unknown]) synced_world)
     = Err "unable to locate invoice".
Proof.
  split.
  - apply (proj1 (GetPayments_failures
                    (with_store_errors example_env (Some "bucket missing") (fun _ => None))
                    synced_world "bucket missing")).
    reflexivity.
  - apply (proj2 (GetPayments_failures (example_env_with true [htlc_unknown])
                    synced_world "unable to locate invoice"));
      reflexivity.
Defined.

(** X17. The item [GetPayments] builds keeps everything of a record
    whose type is one of the four constants of [paymentType]: two such
    records that give the same item are the same record, and the four
    types go to four different categories. *)
Theorem paymentItem_injective p q :
  paymentItem p = paymentItem q -> p = q.
Proof.
  destruct p as [tp ? ? ? ? ? ? ? ? ? ? ? ? ?], q as [tq ? ? ? ? ? ? ? ? ? ? ? ? ?].
  unfold paymentItem. cbn. intros H.
  injection H as Ht Ha Hc Hd _ Hpn Hpi Hrn Hri Htr Hx Hh Hdest Hph Hpt.
  subst. f_equal. destruct tp, tq; congruence.
Qed.

Lemma paymentItem_injective_witness : payment1 = payment1.
Proof. apply (paymentItem_injective payment1 payment1). reflexivity. Defined.

(** ** Sending a payment *)

(** X18. [SendPaymentForRequest] returns the error of the node when the
    payment request does not decode, and returns the payment error of
    the node as an error when the node reports one: in both cases no
    pass of the synchronizer runs and nothing is recorded.  Once the node
    has accepted the payment, the pass runs against a store that holds
    the request just saved, and whatever the pass returns the caller gets
    no error. *)
Theorem SendPaymentForRequest_outcomes env save send paymentRequest amount w :
  (forall e,
      DecodePayReq env paymentRequest = Failure e ->
      SendPaymentForRequest env save send paymentRequest amount w
      = {| res := Err e; world := w; events := [CallDecodePayReq paymentRequest] |})
  /\ (forall decodedReq paymentError,
      DecodePayReq env paymentRequest = Success decodedReq ->
      save (lnrpc.PaymentHash decodedReq) (list_byte_of_string paymentRequest) = None ->
      send paymentRequest amount = Success paymentError ->
      paymentError <> "" ->
      SendPaymentForRequest env save send paymentRequest amount w
      = {| res := Err paymentError; world := w;
           events := [CallDecodePayReq paymentRequest] |})
  /\ (forall decodedReq,
      DecodePayReq env paymentRequest = Success decodedReq ->
      save (lnrpc.PaymentHash decodedReq) (list_byte_of_string paymentRequest) = None ->
      send paymentRequest amount = Success "" ->
      let saved := with_saved_request env (lnrpc.PaymentHash decodedReq)
                     (list_byte_of_string paymentRequest) in
      fetchPaymentRequest_db saved (lnrpc.PaymentHash decodedReq)
      = Success (list_byte_of_string paymentRequest)
      /\ events (SendPaymentForRequest env save send paymentRequest amount w)
         = CallDecodePayReq paymentRequest :: events (syncSentPayments saved w)
      /\ world (SendPaymentForRequest env save send paymentRequest amount w)
         = world (syncSentPayments saved w)
      /\ forall e,
           res (SendPaymentForRequest env save send paymentRequest amount w) <> Err e).
Proof.
  split; [| split].
  - intros e Hd. unfold SendPaymentForRequest, call, bind. rewrite Hd. reflexivity.
  - intros req paymentError Hd Hs Hp Hne.
    unfold SendPaymentForRequest, call, bind. rewrite Hd.
    cbn [res world events emit ret fail app]. rewrite Hs, Hp.
    destruct (0 <? String.length paymentError)%nat eqn:Hlen; [reflexivity |].
    apply length_zero_empty in Hlen. contradiction.
  - intros req Hd Hs Hp saved. split.
    + unfold saved. cbn. now rewrite String.eqb_refl.
    + unfold SendPaymentForRequest, call, bind. rewrite Hd.
      cbn [res world events emit ret fail app]. rewrite Hs, Hp.
      cbn [String.length Nat.ltb Nat.leb]. fold saved.
      unfold discard, attempt, bind.
      destruct (res (syncSentPayments saved w)); cbn [res world events app ret];
        rewrite ?app_nil_r; repeat split; discriminate.
Qed.

Lemma SendPaymentForRequest_outcomes_witness :
  SendPaymentForRequest example_env (fun _ _ => None)
    (fun _ _ => Success "unable to find a path to destination") "lnbc-text" 700
    empty_world
  = {| res := Err "unable to find a path to destination"; world := empty_world;
       events := [CallDecodePayReq "lnbc-text"] |}
  /\ forall e,
       res (SendPaymentForRequest
              (with_ListPayments example_env (Failure "node is down"))
              (fun _ _ => None) (fun _ _ => Success "") "lnbc-text" 700 empty_world)
       <> Err e.
Proof.
  split.
  - apply (proj1 (proj2 (SendPaymentForRequest_outcomes example_env (fun _ _ => None)
                           (fun _ _ => Success "unable to find a path to destination")
                           "lnbc-text" 700 empty_world))
             {| lnrpc.Destination := "03peer"; lnrpc.PaymentHash := "h-text";
                lnrpc.NumSatoshis := 700; lnrpc.Timestamp := 1540000100;
                lnrpc.PayReq_Description := "thanks for lunch" |});
      try reflexivity. discriminate.
  - destruct (proj2 (proj2 (SendPaymentForRequest_outcomes
                              (with_ListPayments example_env (Failure "node is down"))
                              (fun _ _ => None) (fun _ _ => Success "")
                              "lnbc-text" 700 empty_world))
                {| lnrpc.Destination := "03peer"; lnrpc.PaymentHash := "h-text";
                   lnrpc.NumSatoshis := 700; lnrpc.Timestamp := 1540000100;
                   lnrpc.PayReq_Description := "thanks for lunch" |}
                eq_refl eq_refl eq_refl) as (_ & _ & _ & Hnoerr).
    exact Hnoerr.
Defined.
